(** * The API client of [04-projects/api-integration.ts]

    A shallow embedding of the [ApiClient] class: request execution with a
    timeout timer, the retry wrapper with exponential backoff, error
    classification, and the TTL cache keyed by request signature; and of
    the two services, [UserService] and [PostService], that wrap a client.

    Conventions of the embedding.
    - JavaScript numbers that the client handles (timeouts, retry counts,
      delays, TTLs, status codes, the clock, numbers in JSON values) are
      integers, [Z], taken in the range in which JavaScript holds and
      prints every integer exactly (below 2^53 in magnitude).
    - A value of type [any] that travels as a request body or as response
      data is a JSON value, [json]: what [JSON.parse] can return, with
      integers for numbers. [undefined] as a whole body is [None] of
      [option json]. Values that [JSON.stringify] drops, replaces or
      rejects -- [undefined] inside an object or an array, [NaN], a
      [BigInt], an object that contains itself -- are outside the
      embedding, and so is what the client does with them.
    - Strings are sequences of 8-bit code units.
    - Timers are those of Node.js: a delay from 1 to 2^31 - 1 is kept, any
      other delay is 1 ms ([timer_delay]), and a timer fires exactly when
      its delay has passed. Time passes while a [fetch] is pending and
      during a backoff wait, and at no other point of a call: reading the
      body of a response, which the client does after it has cancelled
      the abort timer, takes no time here.
    - The host environment is not part of the program. Its state, [World],
      holds the clock, the abort timer of the request in flight, and the
      trace of everything the client has asked of the host. The [fetch]
      primitive is a parameter, [transport], that decides from that state
      how each invocation ends and how long it takes. A transport that
      honours the abort signal, as the [fetch] of the platform does, is
      [signal_aware]: it rejects with an error named [AbortError] an
      attempt that is pending when the timer fires, and every attempt made
      after that; this is how a timeout reaches the client's code.
    - Every public operation runs to completion before the next one starts;
      [console.log] output is not recorded. *)

From Stdlib Require Import ZArith String Ascii List Lia Bool.
From Stdlib Require Import DecimalString DecimalZ.
From stdpp Require Import base gmap strings list option.
From Equations Require Import Equations.

Local Open Scope Z_scope.

(** * JavaScript values *)

(** The JSON fragment of JavaScript values. An object is the list of its
    own enumerable properties in enumeration order. *)
#[local] Unset Elimination Schemes.
Inductive json : Type :=
| JNull
| JBool (b : bool)
| JNum (n : Z)
| JStr (s : string)
| JArr (elements : list json)
| JObj (members : list (string * json)).
#[local] Set Elimination Schemes.

(** [ToBoolean]: the values JavaScript treats as true in a condition. *)
Class Truthy (A : Type) := truthy : A -> bool.

#[export] Instance truthy_number : Truthy Z :=
  fun n => negb (n =? 0).

#[export] Instance truthy_string : Truthy string :=
  fun s => match s with EmptyString => false | String _ _ => true end.

#[export] Instance truthy_json : Truthy json :=
  fun v =>
    match v with
    | JNull => false
    | JBool b => b
    | JNum n => truthy n
    | JStr s => truthy s
    | JArr _ => true
    | JObj _ => true
    end.

(** A possibly-[undefined] (or, for [getFromCache], possibly-[null]) value:
    [None] is falsy. *)
#[export] Instance truthy_option {A} `{Truthy A} : Truthy (option A) :=
  fun o => match o with Some a => truthy a | None => false end.

(** [a || b] where [a] may be [undefined]. *)
Definition js_or {A} `{Truthy A} (a : option A) (b : A) : A :=
  match a with
  | Some x => if truthy x then x else b
  | None => b
  end.

(** An optional property of an object literal: not an own property, an own
    property holding [undefined], or an own property holding a value. *)
Inductive prop (A : Type) : Type :=
| Absent
| Undefined
| Present (a : A).
Arguments Absent {A}.
Arguments Undefined {A}.
Arguments Present {A} a.

(** Reading a property: [o.p]. *)
Definition read {A} (p : prop A) : option A :=
  match p with
  | Present a => Some a
  | Absent | Undefined => None
  end.

(** [{p: d, ...o}.p]: the spread copies every own property of [o], also
    one that holds [undefined], over what was written before it. *)
Definition spread_over {A} (d : option A) (p : prop A) : option A :=
  match p with
  | Absent => d
  | Undefined => None
  | Present a => Some a
  end.

(** * Text *)

Module Text.

Local Open Scope string_scope.

Definition quote_char : ascii := "034"%char.
Definition backslash : ascii := "092"%char.

(** [Number.prototype.toString] on an integer. *)
Definition number_to_string (n : Z) : string :=
  NilEmpty.string_of_int (Z.to_int n).

Definition hex_digit (n : N) : ascii :=
  match n with
  | 0%N => "0" | 1%N => "1" | 2%N => "2" | 3%N => "3"
  | 4%N => "4" | 5%N => "5" | 6%N => "6" | 7%N => "7"
  | 8%N => "8" | 9%N => "9" | 10%N => "a" | 11%N => "b"
  | 12%N => "c" | 13%N => "d" | 14%N => "e" | _ => "f"
  end%char.

(** One code unit of [QuoteJSONString]. *)
Definition escape_char (c : ascii) : string :=
  let n := N_of_ascii c in
  if (n =? 8)%N then String backslash "b"
  else if (n =? 9)%N then String backslash "t"
  else if (n =? 10)%N then String backslash "n"
  else if (n =? 12)%N then String backslash "f"
  else if (n =? 13)%N then String backslash "r"
  else if (n =? 34)%N then String backslash (String quote_char EmptyString)
  else if (n =? 92)%N then String backslash (String backslash EmptyString)
  else if (n <? 32)%N then
    String backslash
      (String "u" (String "0" (String "0"
        (String (hex_digit (n / 16)) (String (hex_digit (n mod 16)) EmptyString)))))
  else String c EmptyString.

Fixpoint escape (s : string) : string :=
  match s with
  | EmptyString => EmptyString
  | String c rest => escape_char c ++ escape rest
  end.

(** [QuoteJSONString]. *)
Definition quote (s : string) : string :=
  String quote_char (escape s ++ String quote_char EmptyString).

(** [JSON.stringify] without indentation: the serialized elements of an
    array, and the serialized members of an object, are joined by commas. *)
Fixpoint stringify (v : json) : string :=
  match v with
  | JNull => "null"
  | JBool true => "true"
  | JBool false => "false"
  | JNum n => number_to_string n
  | JStr s => quote s
  | JArr elements =>
      "[" ++ String.concat "," (map stringify elements) ++ "]"
  | JObj members =>
      "{" ++
      String.concat ","
        (map (fun m => quote (fst m) ++ ":" ++ stringify (snd m)) members)
      ++ "}"
  end.

(** [s.replace(/\/$/, "")]: one slash at the very end of [s] is removed. *)
Fixpoint strip_trailing_slash (s : string) : string :=
  match s with
  | EmptyString => EmptyString
  | String c rest =>
      match rest with
      | EmptyString => if Ascii.eqb c "/" then EmptyString else s
      | String _ _ => String c (strip_trailing_slash rest)
      end
  end.

End Text.

(** * Data model *)

(** [type HttpMethod]. *)
Inductive HttpMethod : Type := GET | POST | PUT | PATCH | DELETE.

#[export] Instance HttpMethod_eq_dec : EqDecision HttpMethod.
Proof. solve_decision. Defined.

(** [class ApiError extends Error]; [response] is [undefined] when the
    constructor got two arguments. *)
Record ApiError : Type := mkApiError {
  message : string;
  status : Z;
  response : option json
}.

(** What a [catch] clause can receive. *)
Inductive thrown : Type :=
| ThrownApiError (e : ApiError)
    (** an instance of [ApiError] *)
| ThrownError (name msg : string)
    (** any other instance of [Error] *)
| ThrownValue (name : option string)
    (** a value that is not an [Error]; [name] is its [name] property when
        that is a string *)
| ThrownNullish (is_null : bool).
    (** [null] when [is_null], else [undefined] *)

(** How a computation that may throw ends. *)
Inductive result (A : Type) : Type :=
| Ok (a : A)
| Throw (t : thrown).
Arguments Ok {A} a.
Arguments Throw {A} t.

(** [interface RequestConfig], as the object is at run time: every
    property read may give [undefined]. *)
Record RequestConfig : Type := mkRequestConfig {
  method : option HttpMethod;
  headers : option (gmap string string);
  body : option json;
  timeout : option Z;
  retries : option Z;
  retryDelay : option Z
}.

(** [Partial<RequestConfig>]: the object literal a caller passes. *)
Record PartialConfig : Type := mkPartialConfig {
  p_method : prop HttpMethod;
  p_headers : prop (gmap string string);
  p_body : prop json;
  p_timeout : prop Z;
  p_retries : prop Z;
  p_retryDelay : prop Z
}.

(** The default argument [{}]. *)
Definition empty_config : PartialConfig :=
  mkPartialConfig Absent Absent Absent Absent Absent Absent.

(** [interface CacheEntry<T>]. *)
Record CacheEntry : Type := mkCacheEntry {
  data : json;
  timestamp : Z;
  expiresAt : Z
}.

(** [interface ApiResponse<T>]. *)
Record ApiResponse : Type := mkApiResponse {
  res_data : json;
  res_status : Z;
  res_statusText : string;
  res_headers : gmap string string
}.

(** The [RequestInit] handed to [fetch]. Its [signal] belongs to the abort
    timer of the enclosing [request] and is the same for all attempts of
    one call. *)
Record RequestInit : Type := mkRequestInit {
  ri_method : option HttpMethod;
  ri_headers : gmap string string;
  ri_body : option string
}.

(** The host's [Response]: status line, headers in iteration order, and
    what [response.json()] settles to. *)
Record Response : Type := mkResponse {
  r_status : Z;
  r_statusText : string;
  r_headers : list (string * string);
  r_json : result json
}.

(** [response.ok]: the status is in the range 200-299. *)
Definition r_ok (r : Response) : bool :=
  (200 <=? r_status r) && (r_status r <=? 299).

(** Fields of the client object. *)
Record ApiClient : Type := mkApiClient {
  baseUrl : string;
  defaultHeaders : gmap string string;
  cache : gmap string CacheEntry;
  defaultTimeout : Z
}.

(** * The host environment

    What lies outside the program: the clock, the timers, and the [fetch]
    primitive. The client's requests to the host are recorded in a trace;
    the host's answers to [fetch] are a parameter of the client. *)

(** What the client asks of the host, in order. *)
Inductive event : Type :=
| EvSetAbortTimer (ms : Z)
    (** [setTimeout(() => controller.abort(), ms)] *)
| EvClearAbortTimer
    (** [clearTimeout(timeoutId)] *)
| EvFetch (url : string) (options : RequestInit)
    (** [fetch(url, options)] *)
| EvWait (ms : Z).
    (** [await new Promise(resolve => setTimeout(resolve, ms))] *)

Record World : Type := mkWorld {
  now : Z;
    (** what [Date.now()] returns *)
  trace : list event;
    (** what the client has asked of the host so far *)
  abort_timer : option Z
    (** when the abort timer of the request in flight fires, if one is
        armed; a [fetch] that honours its signal is rejected from then on *)
}.

(** One invocation of [fetch]: how long it takes to settle and how. *)
Record Attempt : Type := mkAttempt {
  elapsed : Z;
  outcome : result Response
}.

Definition Transport : Type := World -> string -> RequestInit -> Attempt.

(** * Computations of the client: state and exceptions *)

Record Sys : Type := mkSys {
  self : ApiClient;
  world : World
}.

Definition M (A : Type) : Type := Sys -> result A * Sys.

Definition ret {A} (a : A) : M A := fun s => (Ok a, s).

Definition throw {A} (t : thrown) : M A := fun s => (Throw t, s).

Definition bind {A B} (m : M A) (k : A -> M B) : M B :=
  fun s =>
    match m s with
    | (Ok a, s') => k a s'
    | (Throw t, s') => (Throw t, s')
    end.

(** [try { m } catch (error) { h error }]. *)
Definition try_catch {A} (m : M A) (h : thrown -> M A) : M A :=
  fun s =>
    match m s with
    | (Ok a, s') => (Ok a, s')
    | (Throw t, s') => h t s'
    end.

(** The computations are a monad in the sense of stdpp, which gives the
    notation [x ← m; k]. *)
#[export] Instance client_ret : MRet M := @ret.

#[export] Instance client_bind : MBind M := fun A B k m => bind m k.

(** The delay after which the runtime fires a timer set for [ms]
    milliseconds: [ms] itself from 1 up to 2^31 - 1, and 1 for every other
    delay, as [setTimeout] of Node.js has it. *)
Definition TIMEOUT_MAX : Z := 2147483647.

Definition timer_delay (ms : Z) : Z :=
  if (1 <=? ms) && (ms <=? TIMEOUT_MAX) then ms else 1.

(** [setTimeout(() => controller.abort(), ms)] on a new controller. *)
Definition setTimeout_abort (ms : Z) : M unit :=
  fun s =>
    (Ok tt,
     mkSys (self s)
       (mkWorld (now (world s))
                (trace (world s) ++ [EvSetAbortTimer ms])
                (Some (now (world s) + timer_delay ms)))).

(** [clearTimeout(timeoutId)]. The signal of the request is not used
    after it. *)
Definition clearTimeout : M unit :=
  fun s =>
    (Ok tt,
     mkSys (self s)
       (mkWorld (now (world s)) (trace (world s) ++ [EvClearAbortTimer]) None)).

Definition get_self : M ApiClient := fun s => (Ok (self s), s).

(** The client object with its cache map replaced. *)
Definition with_cache (c : ApiClient) (entries : gmap string CacheEntry)
    : ApiClient :=
  mkApiClient (baseUrl c) (defaultHeaders c) entries (defaultTimeout c).

Definition set_cache (entries : gmap string CacheEntry) : M unit :=
  fun s => (Ok tt, mkSys (with_cache (self s) entries) (world s)).

(** [Date.now()]. *)
Definition Date_now : M Z := fun s => (Ok (now (world s)), s).

(** [await] of a promise the host settles with [r]; no time passes. *)
Definition await {A} (r : result A) : M A := fun s => (r, s).

(** * The client *)

Section Client.

Local Open Scope string_scope.

(** The host's [fetch]. *)
Variable transport : Transport.

(** [await fetch(url, options)]: the host decides how the attempt ends;
    the invocation is recorded and the clock moves on. *)
Definition fetch (url : string) (options : RequestInit) : M Response :=
  fun s =>
    let a := transport (world s) url options in
    (outcome a,
     mkSys (self s)
       (mkWorld (now (world s) + elapsed a)
                (trace (world s) ++ [EvFetch url options])
                (abort_timer (world s)))).

(** [await new Promise(resolve => setTimeout(resolve, ms))]: the clock
    moves on by the delay of the timer. *)
Definition wait (ms : Z) : M unit :=
  fun s =>
    (Ok tt,
     mkSys (self s)
       (mkWorld (now (world s) + timer_delay ms)
                (trace (world s) ++ [EvWait ms])
                (abort_timer (world s)))).

(** [constructor(baseUrl, defaultHeaders = {})]. *)
Definition new_ApiClient (baseUrl : string)
    (defaultHeaders : gmap string string) : ApiClient :=
  {| baseUrl := Text.strip_trailing_slash baseUrl;
     defaultHeaders :=
       defaultHeaders ∪ {[ "Content-Type" := "application/json" ]};
     cache := ∅;
     defaultTimeout := 30000 |}.

(** [fetchWithRetry(url, options, retries, delay)]. *)
Equations? fetchWithRetry (url : string) (options : RequestInit)
    (retries delay : Z) (s : Sys) : result Response * Sys
    by wf (Z.to_nat retries) lt :=
  fetchWithRetry url options retries delay s
    with fetch url options s := {
    | (Ok response, s1) := (Ok response, s1);
    | (Throw error, s1) with Z_gt_dec retries 0 := {
        | left _ with wait delay s1 := {
            | (_, s2) :=
                fetchWithRetry url options (retries - 1) (delay * 2) s2 };
        | right _ := (Throw error, s1) } }.
Proof. lia. Qed.

(** [parseHeaders(headers)]: the own properties of [result] after
    [result[key] = value] for every header the iteration visits. The
    assignment to the name [__proto__] reaches the setter of
    [Object.prototype], which ignores a string: it adds no property. *)
Definition parseHeaders (hs : list (string * string)) : gmap string string :=
  fold_left
    (fun result kv =>
       if String.eqb (fst kv) "__proto__" then result
       else <[ fst kv := snd kv ]> result)
    hs ∅.

(** The [TypeError] of reading [name] from [null] or from [undefined];
    the text is that of V8. *)
Definition nullish_read_error (is_null : bool) : thrown :=
  ThrownError "TypeError"
    ("Cannot read properties of "
       ++ (if is_null then "null" else "undefined") ++ " (reading 'name')").

(** [request<T>(endpoint, config)]. *)
Definition request (endpoint : string) (config : RequestConfig)
    : M ApiResponse :=
  this ← get_self;
  let url := baseUrl this ++ endpoint in
  let timeout := js_or (timeout config) (defaultTimeout this) in
  setTimeout_abort timeout;;
  try_catch
    (let options :=
       {| ri_method := method config;
          ri_headers := default ∅ (headers config) ∪ defaultHeaders this;
          ri_body :=
            if truthy (body config)
               && negb (bool_decide (method config = Some GET))
            then Text.stringify <$> body config
            else None |} in
     response ← fetchWithRetry url options
                  (js_or (retries config) 0)
                  (js_or (retryDelay config) 1000);
     clearTimeout;;
     data ← await (r_json response);
     if negb (r_ok response) then
       throw (ThrownApiError
                (mkApiError
                   ("HTTP " ++ Text.number_to_string (r_status response)
                      ++ ": " ++ r_statusText response)
                   (r_status response)
                   (Some data)))
     else
       mret {| res_data := data;
               res_status := r_status response;
               res_statusText := r_statusText response;
               res_headers := parseHeaders (r_headers response) |})
    (fun error =>
       clearTimeout;;
       match error with
       | ThrownApiError _ => throw error
       | ThrownError name msg =>
           if String.eqb name "AbortError"
           then throw (ThrownApiError (mkApiError "Request timeout" 408 None))
           else throw (ThrownApiError (mkApiError msg 0 None))
       | ThrownValue name =>
           if bool_decide (name = Some "AbortError")
           then throw (ThrownApiError (mkApiError "Request timeout" 408 None))
           else throw (ThrownApiError (mkApiError "Unknown error" 0 None))
       | ThrownNullish is_null => throw (nullish_read_error is_null)
       end).

(** The template literal's rendering of [config.method]. *)
Definition method_to_string (m : option HttpMethod) : string :=
  match m with
  | Some GET => "GET"
  | Some POST => "POST"
  | Some PUT => "PUT"
  | Some PATCH => "PATCH"
  | Some DELETE => "DELETE"
  | None => "undefined"
  end.

(** [getCacheKey(endpoint, config)]. *)
Definition getCacheKey (endpoint : string) (config : RequestConfig) : string :=
  method_to_string (method config) ++ ":" ++ endpoint ++ ":"
    ++ Text.stringify (js_or (body config) (JObj [])).

(** [getFromCache<T>(key)]; [None] is the [null] of a miss. *)
Definition getFromCache (key : string) : M (option json) :=
  this ← get_self;
  match cache this !! key with
  | None => mret None
  | Some entry =>
      t ← Date_now;
      if t >? expiresAt entry then
        set_cache (delete key (cache this));;
        mret None
      else mret (Some (data entry))
  end.

(** [saveToCache<T>(key, data, ttl = 60000)]. *)
Definition saveToCache (key : string) (data : json) (ttl : option Z)
    : M unit :=
  let ttl := default 60000 ttl in
  this ← get_self;
  t ← Date_now;
  set_cache
    (<[ key := {| data := data; timestamp := t; expiresAt := t + ttl |} ]>
       (cache this)).

(** [clearCache()]. *)
Definition clearCache : M unit := set_cache ∅.

(** [{ method: m, ...config }]. *)
Definition with_method (m : HttpMethod) (config : PartialConfig)
    : RequestConfig :=
  {| method := spread_over (Some m) (p_method config);
     headers := read (p_headers config);
     body := read (p_body config);
     timeout := read (p_timeout config);
     retries := read (p_retries config);
     retryDelay := read (p_retryDelay config) |}.

(** [{ method: m, body, ...config }]. *)
Definition with_method_body (m : HttpMethod) (b : option json)
    (config : PartialConfig) : RequestConfig :=
  {| method := spread_over (Some m) (p_method config);
     headers := read (p_headers config);
     body := spread_over b (p_body config);
     timeout := read (p_timeout config);
     retries := read (p_retries config);
     retryDelay := read (p_retryDelay config) |}.

(** [get<T>(endpoint, config = {}, cacheTtl?)]. *)
Definition get (endpoint : string) (config : PartialConfig)
    (cacheTtl : option Z) : M json :=
  let fullConfig := with_method GET config in
  if truthy cacheTtl then
    let cacheKey := getCacheKey endpoint fullConfig in
    cached ← getFromCache cacheKey;
    if truthy cached then
      (* [return cached]: a truthy [cached] is not [null] *)
      mret (default JNull cached)
    else
      response ← request endpoint fullConfig;
      saveToCache cacheKey (res_data response) cacheTtl;;
      mret (res_data response)
  else
    response ← request endpoint fullConfig;
    mret (res_data response).

(** [post<T, B>(endpoint, body, config = {})]. *)
Definition post (endpoint : string) (body : option json)
    (config : PartialConfig) : M json :=
  response ← request endpoint (with_method_body POST body config);
  mret (res_data response).

(** [put<T, B>(endpoint, body, config = {})]. *)
Definition put (endpoint : string) (body : option json)
    (config : PartialConfig) : M json :=
  response ← request endpoint (with_method_body PUT body config);
  mret (res_data response).

(** [patch<T, B>(endpoint, body, config = {})]. *)
Definition patch (endpoint : string) (body : option json)
    (config : PartialConfig) : M json :=
  response ← request endpoint (with_method_body PATCH body config);
  mret (res_data response).

(** [delete<T>(endpoint, config = {})]. *)
Definition delete_ (endpoint : string) (config : PartialConfig) : M json :=
  response ← request endpoint (with_method DELETE config);
  mret (res_data response).

End Client.

(** * The service layer *)

(** [class UserService]; the client it wraps is the one of the state. *)
Module UserService.

(** [getUsers()]. *)
Definition getUsers (transport : Transport) : M json :=
  get transport "/users" empty_config (Some 60000).

(** [getUser(id)]. *)
Definition getUser (transport : Transport) (id : Z) : M json :=
  get transport ("/users/" ++ Text.number_to_string id)%string empty_config None.

(** [getUserPosts(userId)]. *)
Definition getUserPosts (transport : Transport) (userId : Z) : M json :=
  get transport ("/users/" ++ Text.number_to_string userId ++ "/posts")%string
    empty_config None.

End UserService.

(** [class PostService]. *)
Module PostService.

(** [getPosts()]. *)
Definition getPosts (transport : Transport) : M json :=
  get transport "/posts" empty_config None.

(** [getPost(id)]. *)
Definition getPost (transport : Transport) (id : Z) : M json :=
  get transport ("/posts/" ++ Text.number_to_string id)%string empty_config None.

(** [createPost(input)]. *)
Definition createPost (transport : Transport) (input : json) : M json :=
  post transport "/posts" (Some input) empty_config.

(** [updatePost(id, updates)]. *)
Definition updatePost (transport : Transport) (id : Z) (updates : json) : M json :=
  patch transport ("/posts/" ++ Text.number_to_string id)%string (Some updates)
    empty_config.

(** [deletePost(id)]: the data of the response is dropped. *)
Definition deletePost (transport : Transport) (id : Z) : M unit :=
  delete_ transport ("/posts/" ++ Text.number_to_string id)%string empty_config;;
  mret tt.

(** [getPostComments(postId)]. *)
Definition getPostComments (transport : Transport) (postId : Z) : M json :=
  get transport ("/posts/" ++ Text.number_to_string postId ++ "/comments")%string
    empty_config None.

End PostService.

(** * Vocabulary of the properties *)

(** ** Traces *)

(** The invocations of the transport dependency in a trace, in order: the
    URL and the [RequestInit] of each. *)
Definition fetches (tr : list event) : list (string * RequestInit) :=
  flat_map (fun e => match e with EvFetch url o => [(url, o)] | _ => [] end) tr.

(** The backoff waits in a trace, in order. *)
Definition waits (tr : list event) : list Z :=
  flat_map (fun e => match e with EvWait ms => [ms] | _ => [] end) tr.

(** The lengths of the abort timers armed in a trace, in order. *)
Definition abort_timers (tr : list event) : list Z :=
  flat_map (fun e => match e with EvSetAbortTimer ms => [ms] | _ => [] end) tr.

(** The methods of the outgoing requests in a trace, in order. *)
Definition outgoing_methods (tr : list event) : list (option HttpMethod) :=
  map (fun r => ri_method (snd r)) (fetches tr).

(** The header maps of the outgoing requests in a trace, in order. *)
Definition outgoing_headers (tr : list event) : list (gmap string string) :=
  map (fun r => ri_headers (snd r)) (fetches tr).

(** The events a computation adds to the trace when it runs from [s]. *)
Definition events_of {A} (m : M A) (s : Sys) : list event :=
  drop (length (trace (world s))) (trace (world (snd (m s)))).

(** [w] is a world of a run that starts in [s]: its trace continues that
    of [s]. *)
Definition during (s : Sys) (w : World) : Prop :=
  exists evs, trace w = trace (world s) ++ evs.

(** The trace of a retry sequence that performs [k] retries: [k + 1]
    invocations of the transport with a wait before each retry. *)
Fixpoint retry_events (url : string) (options : RequestInit) (delay : Z)
    (k : nat) : list event :=
  match k with
  | O => [EvFetch url options]
  | S k' =>
      EvFetch url options :: EvWait delay
        :: retry_events url options (delay * 2) k'
  end.

(** ** Calls *)

(** A call of one of the five verb entry points. *)
Inductive call : Type :=
| Get (endpoint : string) (config : PartialConfig) (cacheTtl : option Z)
| Post (endpoint : string) (body : option json) (config : PartialConfig)
| Put (endpoint : string) (body : option json) (config : PartialConfig)
| Patch (endpoint : string) (body : option json) (config : PartialConfig)
| Delete (endpoint : string) (config : PartialConfig).

Definition run_call (transport : Transport) (c : call) : M json :=
  match c with
  | Get endpoint config cacheTtl => get transport endpoint config cacheTtl
  | Post endpoint body config => post transport endpoint body config
  | Put endpoint body config => put transport endpoint body config
  | Patch endpoint body config => patch transport endpoint body config
  | Delete endpoint config => delete_ transport endpoint config
  end.

(** The verb an entry point is named after. *)
Definition entry_point (c : call) : HttpMethod :=
  match c with
  | Get _ _ _ => GET
  | Post _ _ _ => POST
  | Put _ _ _ => PUT
  | Patch _ _ _ => PATCH
  | Delete _ _ => DELETE
  end.

Definition call_config (c : call) : PartialConfig :=
  match c with
  | Get _ config _ | Post _ _ config | Put _ _ config | Patch _ _ config
  | Delete _ config => config
  end.

Definition call_endpoint (c : call) : string :=
  match c with
  | Get e _ _ | Post e _ _ | Put e _ _ | Patch e _ _ | Delete e _ => e
  end.

(** The [RequestConfig] an entry point builds for [request]. *)
Definition call_request_config (c : call) : RequestConfig :=
  match c with
  | Get _ config _ => with_method GET config
  | Post _ body config => with_method_body POST body config
  | Put _ body config => with_method_body PUT body config
  | Patch _ body config => with_method_body PATCH body config
  | Delete _ config => with_method DELETE config
  end.

(** The client built by [new ApiClient(baseUrl, defaultHeaders)], at a
    later time when its cache holds [entries]. *)
Definition instance (baseUrl : string) (defaultHeaders : gmap string string)
    (entries : gmap string CacheEntry) : ApiClient :=
  with_cache (new_ApiClient baseUrl defaultHeaders) entries.

(** The timer length of a call: the timeout of the caller's configuration
    unless it is absent or zero, else the default of the constructor. *)
Definition timer_length (c : call) : Z :=
  match read (p_timeout (call_config c)) with
  | Some t => if t =? 0 then 30000 else t
  | None => 30000
  end.

(** The method of the requests a call sends: the verb of the entry point
    unless the caller's configuration has a [method] property of its own. *)
Definition sent_method (c : call) : option HttpMethod :=
  match p_method (call_config c) with
  | Absent => Some (entry_point c)
  | Undefined => None
  | Present m => Some m
  end.

(** The value of header [key] in the requests of a call: per-call headers
    first, then the constructor's defaults, then the built-in entry. *)
Definition sent_header (perCall : option (gmap string string))
    (defaults : gmap string string) (key : string) : option string :=
  match perCall ≫= (fun h => h !! key) with
  | Some v => Some v
  | None =>
      match defaults !! key with
      | Some v => Some v
      | None =>
          if decide (key = "Content-Type"%string) then Some "application/json"%string
          else None
      end
  end.

(** ** Request execution *)

(** The URL and the [RequestInit] that [request] hands to the retry wrapper. *)
Definition request_url (this : ApiClient) (endpoint : string) : string :=
  (baseUrl this ++ endpoint)%string.

Definition request_options (this : ApiClient) (config : RequestConfig) : RequestInit :=
  {| ri_method := method config;
     ri_headers := default ∅ (headers config) ∪ defaultHeaders this;
     ri_body :=
       if truthy (body config) && negb (bool_decide (method config = Some GET))
       then Text.stringify <$> body config
       else None |}.

(** The state after the abort timer has been armed, and after it has
    been cleared. *)
Definition arm (ms : Z) (s : Sys) : Sys := snd (setTimeout_abort ms s).

Definition disarm (s : Sys) : Sys := snd (clearTimeout s).

(** The state in which [request] makes its first attempt: the abort timer
    has been armed. *)
Definition armed (config : RequestConfig) (s : Sys) : Sys :=
  arm (js_or (timeout config) (defaultTimeout (self s))) s.

(** What [request] makes of a received response: the parsed body is
    read, then the status is checked. *)
Definition respond (response : Response) : result ApiResponse :=
  match r_json response with
  | Ok data =>
      if negb (r_ok response) then
        Throw (ThrownApiError
                 (mkApiError
                    ("HTTP " ++ Text.number_to_string (r_status response)
                       ++ ": " ++ r_statusText response)%string
                    (r_status response) (Some data)))
      else Ok {| res_data := data; res_status := r_status response;
                 res_statusText := r_statusText response;
                 res_headers := parseHeaders (r_headers response) |}
  | Throw t => Throw t
  end.

(** A thrown value that [request] classifies as a transport failure: an
    [Error] that is neither an [ApiError] nor named [AbortError]. *)
Definition transport_failure (t : thrown) : Prop :=
  exists name msg, t = ThrownError name msg /\ name <> "AbortError"%string.

(** A thrown value that [request] classifies as a timeout: an [Error]
    named [AbortError]. *)
Definition abort_rejection (t : thrown) : Prop :=
  exists msg, t = ThrownError "AbortError" msg.

(** The message that [request] puts in the [ApiError] for a thrown value
    it classifies with status 0. *)
Definition failure_message (t : thrown) : string :=
  match t with
  | ThrownError _ msg => msg
  | _ => "Unknown error"
  end.

(** What the [catch] clause of [request] throws for what it caught. *)
Definition classify (error : thrown) : thrown :=
  match error with
  | ThrownApiError _ => error
  | ThrownError name msg =>
      if String.eqb name "AbortError"
      then ThrownApiError (mkApiError "Request timeout" 408 None)
      else ThrownApiError (mkApiError msg 0 None)
  | ThrownValue name =>
      if bool_decide (name = Some "AbortError"%string)
      then ThrownApiError (mkApiError "Request timeout" 408 None)
      else ThrownApiError (mkApiError "Unknown error" 0 None)
  | ThrownNullish is_null => nullish_read_error is_null
  end.

(** The timer cancellations that follow the last attempt: one on every
    path, and a second one when the [catch] clause runs after the first. *)
Definition clears_after (o : result Response) : list event :=
  match o with
  | Ok response =>
      match respond response with
      | Ok _ => [EvClearAbortTimer]
      | Throw _ => [EvClearAbortTimer; EvClearAbortTimer]
      end
  | Throw _ => [EvClearAbortTimer]
  end.

(** What [request] returns or throws for the way its last attempt ended. *)
Definition settle (o : result Response) : result ApiResponse :=
  match o with
  | Ok response =>
      match respond response with
      | Ok r => Ok r
      | Throw t => Throw (classify t)
      end
  | Throw t => Throw (classify t)
  end.

(** One failed attempt of the retry wrapper: the transport threw while
    retries were left, the wrapper has waited, and the next attempt is due
    with one retry less and twice the delay. *)
Inductive retry_step (transport : Transport) (url : string)
    (options : RequestInit) : Z * Z * Sys -> Z * Z * Sys -> Prop :=
| retry_step_intro retries delay s error s1 :
    fetch transport url options s = (Throw error, s1) ->
    retries > 0 ->
    retry_step transport url options
      (retries, delay, s) (retries - 1, delay * 2, snd (wait delay s1)).

(** The attempts of one [request]: from the first one, made with the
    configured retries and delay once the timer is armed, along failed
    attempts. *)
Definition attempt_of (transport : Transport) (endpoint : string)
    (config : RequestConfig) (s : Sys) (a : Z * Z * Sys) : Prop :=
  rtc (retry_step transport (request_url (self s) endpoint)
         (request_options (self s) config))
    (js_or (retries config) 0, js_or (retryDelay config) 1000, armed config s)
    a.

(** The attempt number [k + 1] of one [request]: the one made after [k]
    failed attempts, each of them followed by its wait. *)
Definition nth_attempt (transport : Transport) (endpoint : string)
    (config : RequestConfig) (s : Sys) (k : nat) (a : Z * Z * Sys) : Prop :=
  nsteps (retry_step transport (request_url (self s) endpoint)
            (request_options (self s) config))
    k
    (js_or (retries config) 0, js_or (retryDelay config) 1000, armed config s)
    a.

(** ** A transport that honours the abort signal *)

(** The rejection of a [fetch] whose signal is aborted. *)
Definition abort_error : thrown :=
  ThrownError "AbortError" "This operation was aborted".

(** A [fetch] that honours the abort signal, over a network that decides
    how an undisturbed attempt would end: once the abort timer has fired
    the attempt is rejected at once, and an attempt that has not settled
    when the timer fires is rejected at that moment. *)
Definition signal_aware (network : Transport) : Transport :=
  fun w url options =>
    match abort_timer w with
    | Some deadline =>
        if deadline <=? now w then mkAttempt 0 (Throw abort_error)
        else if deadline <=? now w + elapsed (network w url options)
        then mkAttempt (deadline - now w) (Throw abort_error)
        else network w url options
    | None => network w url options
    end.

(** The abort timer fires before the attempt made in [w] settles. *)
Definition timer_fires_first (network : Transport) (url : string)
    (options : RequestInit) (w : World) : Prop :=
  exists deadline,
    abort_timer w = Some deadline /\
    deadline <= now w + elapsed (network w url options).

(** ** The cache and its history

    The states a client can be in, with the log of the verb calls made on
    it and how each ended. Between the operations the environment may change
    the world in any way (time passes). *)

(** The entry under [key] that a lookup at the current time finds alive. *)
Definition live_entry (key : string) (s : Sys) : option CacheEntry :=
  match cache (self s) !! key with
  | Some entry => if now (world s) >? expiresAt entry then None else Some entry
  | None => None
  end.

(** The state a lookup of [key] leaves: an expired entry is removed. *)
Definition evict (key : string) (s : Sys) : Sys :=
  match cache (self s) !! key with
  | Some entry =>
      if now (world s) >? expiresAt entry
      then mkSys (with_cache (self s) (delete key (cache (self s)))) (world s)
      else s
  | None => s
  end.

(** The state after [data] has been stored under [key] with [ttl]. *)
Definition stored (key : string) (data : json) (ttl : Z) (s : Sys) : Sys :=
  mkSys
    (with_cache (self s)
       (<[ key := {| data := data; timestamp := now (world s);
                     expiresAt := now (world s) + ttl |} ]> (cache (self s))))
    (world s).

(** [reachable transport s log]: the client can be in state [s] after the
    verb calls of [log], each with the way it ended. *)
Inductive reachable (transport : Transport)
    : Sys -> list (call * result json) -> Prop :=
| reach_new baseUrl defaultHeaders w :
    reachable transport (mkSys (new_ApiClient baseUrl defaultHeaders) w) []
| reach_call s log c :
    reachable transport s log ->
    reachable transport (snd (run_call transport c s))
      (log ++ [(c, fst (run_call transport c s))])
| reach_clearCache s log :
    reachable transport s log ->
    reachable transport (snd (clearCache s)) log
| reach_environment s log w :
    reachable transport s log ->
    reachable transport (mkSys (self s) w) log.

(** The entry [entry] under [key] is accounted for by the log: a call of
    [get] with a TTL that passes the test [if (cacheTtl)] returned the
    entry's data, its request signature is [key], and the entry expires
    that TTL after its time stamp. *)
Definition stored_by (log : list (call * result json)) (key : string)
    (entry : CacheEntry) : Prop :=
  exists endpoint config ttl,
    In (Get endpoint config (Some ttl), Ok (data entry)) log /\
    ttl <> 0 /\
    key = getCacheKey endpoint (with_method GET config) /\
    expiresAt entry = timestamp entry + ttl.

(** ** Requests on the wire *)

(** The URLs and the bodies of the outgoing requests in a trace, in order. *)
Definition outgoing_urls (tr : list event) : list string :=
  map fst (fetches tr).

Definition outgoing_bodies (tr : list event) : list (option string) :=
  map (fun r => ri_body (snd r)) (fetches tr).

(** The body argument of a call: [post], [put] and [patch] take one. *)
Definition call_body (c : call) : option json :=
  match c with
  | Post _ b _ | Put _ b _ | Patch _ b _ => b
  | Get _ _ _ | Delete _ _ => None
  end.

(** The total time of the backoff waits in a trace. *)
Definition waited (tr : list event) : Z :=
  foldr Z.add 0 (map timer_delay (waits tr)).

(** A computation that, from every state, sends exactly one request, under
    a timer of the client's default length, and leaves the cache as it is. *)
Definition sends_one_request {A} (m : M A) : Prop :=
  forall s,
    length (fetches (events_of m s)) = 1%nat /\
    abort_timers (events_of m s) = [defaultTimeout (self s)] /\
    cache (self (snd (m s))) = cache (self s).

(** The base delay of the backoff of a call: the [retryDelay] of the
    caller's configuration unless it is absent or zero, else 1000 ms. *)
Definition base_delay (c : call) : Z :=
  match read (p_retryDelay (call_config c)) with
  | Some d => if d =? 0 then 1000 else d
  | None => 1000
  end.

(** ** Serialized values *)

Import Text.
Local Open Scope string_scope.

(** Induction over JSON values, with the property available for every
    element of an array and every member of an object. *)
Section JsonInduction.
Variable P : json -> Prop.
Hypothesis Hnull : P JNull.
Hypothesis Hbool : forall b, P (JBool b).
Hypothesis Hnum : forall n, P (JNum n).
Hypothesis Hstr : forall s, P (JStr s).
Hypothesis Harr : forall elements, Forall P elements -> P (JArr elements).
Hypothesis Hobj :
  forall members, Forall (fun m => P (snd m)) members -> P (JObj members).

Fixpoint json_ind (v : json) : P v :=
  match v with
  | JNull => Hnull
  | JBool b => Hbool b
  | JNum n => Hnum n
  | JStr s => Hstr s
  | JArr elements =>
      Harr elements
        ((fix all (l : list json) : Forall P l :=
            match l with
            | [] => Forall_nil P
            | x :: rest => Forall_cons P x rest (json_ind x) (all rest)
            end) elements)
  | JObj members =>
      Hobj members
        ((fix all (l : list (string * json)) : Forall (fun m => P (snd m)) l :=
            match l with
            | [] => Forall_nil _
            | m :: rest => Forall_cons _ m rest (json_ind (snd m)) (all rest)
            end) members)
  end.
End JsonInduction.

Fixpoint all_chars (p : ascii -> bool) (s : string) : bool :=
  match s with
  | EmptyString => true
  | String c rest => p c && all_chars p rest
  end.

(** [s] is empty or starts with a character outside the class. *)
Definition stops (p : ascii -> bool) (s : string) : bool :=
  match s with
  | EmptyString => true
  | String c _ => negb (p c)
  end.

Definition numeric (c : ascii) : bool :=
  let n := N_of_ascii c in
  ((48 <=? n) && (n <=? 57) || (n =? 45))%N.

(** The value of a lower-case hexadecimal digit. *)
Definition unhex (c : ascii) : N :=
  let n := N_of_ascii c in
  if (n <? 58)%N then (n - 48)%N else (n - 87)%N.

(** Reads back one escaped code unit from the front of a string. *)
Definition unescape_head (s : string) : option (ascii * string) :=
  match s with
  | EmptyString => None
  | String c rest =>
      if Ascii.eqb c backslash then
        match rest with
        | String "b" r => Some ("008"%char, r)
        | String "t" r => Some ("009"%char, r)
        | String "n" r => Some ("010"%char, r)
        | String "f" r => Some ("012"%char, r)
        | String "r" r => Some ("013"%char, r)
        | String "u" (String _ (String _ (String h (String l r)))) =>
            Some (ascii_of_N (unhex h * 16 + unhex l), r)
        | String x r => Some (x, r)
        | EmptyString => None
        end
      else if Ascii.eqb c quote_char then None
      else Some (c, rest)
  end.

(** What may come after a value inside a JSON text: nothing, a comma or a
    closing bracket. *)
Definition follows (r : string) : bool :=
  match r with
  | EmptyString => true
  | String c _ => Ascii.eqb c "," || Ascii.eqb c "]" || Ascii.eqb c "}"
  end.

Definition unique_reading (v : json) : Prop :=
  forall v' r r',
    follows r = true -> follows r' = true ->
    stringify v ++ r = stringify v' ++ r' -> v = v' /\ r = r'.

Definition member_text (m : string * json) : string :=
  quote (fst m) ++ ":" ++ stringify (snd m).

(** Where a reader of JSON text is: between tokens, inside a string, or
    right after a backslash inside a string. *)
Inductive lex : Type := Outside | Inside | Escaped.

(** Reads [s] from position [st] at bracket depth [depth]. Outside strings a
    backslash is refused, and so is a colon at depth 0 or below. *)
Fixpoint scan (st : lex) (depth : Z) (s : string) : option (lex * Z) :=
  match s with
  | EmptyString => Some (st, depth)
  | String c rest =>
      match st with
      | Escaped => scan Inside depth rest
      | Inside =>
          if Ascii.eqb c quote_char then scan Outside depth rest
          else if Ascii.eqb c backslash then scan Escaped depth rest
          else scan Inside depth rest
      | Outside =>
          if Ascii.eqb c quote_char then scan Inside depth rest
          else if Ascii.eqb c backslash then None
          else if Ascii.eqb c "[" || Ascii.eqb c "{" then scan Outside (depth + 1) rest
          else if Ascii.eqb c "]" || Ascii.eqb c "}" then scan Outside (depth - 1) rest
          else if Ascii.eqb c ":" then
            if (0 <? depth)%Z then scan Outside depth rest else None
          else scan Outside depth rest
      end
  end.

(** Characters that mean nothing to [scan] outside a string. *)
Definition plain (c : ascii) : bool :=
  negb (Ascii.eqb c quote_char || Ascii.eqb c backslash
        || Ascii.eqb c "[" || Ascii.eqb c "{" || Ascii.eqb c "]" || Ascii.eqb c "}"
        || Ascii.eqb c ":").

(** A serialized value reads from between tokens back to between tokens,
    at the same depth. *)
Definition well_scanned (v : json) : Prop :=
  forall d r, 0 <= d -> scan Outside d (stringify v ++ r) = scan Outside d r.

(** One reader inside a string and one outside it, on the same text. *)
Definition opposite (a b : lex) : Prop :=
  (a = Inside /\ b = Outside) \/ (a = Outside /\ b = Inside).

Local Close Scope string_scope.

(** * Scenarios

    Concrete transports, configurations and states on which the properties
    are tried. *)

(** A transport whose every attempt ends the same way. *)
Definition always (a : Attempt) : Transport := fun _ _ _ => a.

(** A client just constructed, with no default headers, at time 0. *)
Definition fresh (baseUrl : string) : Sys := mkSys (new_ApiClient baseUrl ∅) (mkWorld 0 [] None).

(** A response with status 200 whose body parses to [d]. *)
Definition ok_response (d : json) : Response := mkResponse 200 "OK" [] (Ok d).

(** A server that answers every request with [d] after 20 ms. *)
Definition answers (d : json) : Transport := always (mkAttempt 20 (Ok (ok_response d))).

(** A transport that fails every attempt with the same error. *)
Definition fails_with (name msg : string) : Transport :=
  always (mkAttempt 20 (Throw (ThrownError name msg))).

(** A transport whose every attempt is rejected for an aborted signal. *)
Definition aborts : Transport :=
  fails_with "AbortError" "The operation was aborted".

(** A network on which no connection can be made. *)
Definition unreachable : Transport := fails_with "TypeError" "fetch failed".

(** A server that answers every request with status 404 and a JSON body. *)
Definition not_found : Transport :=
  always (mkAttempt 20
            (Ok (mkResponse 404 "Not Found" []
                   (Ok (JObj [("error"%string, JStr "no such user")]))))).

(** A gateway that answers 502 with a page that is not JSON. *)
Definition bad_gateway : Transport :=
  always (mkAttempt 20
            (Ok (mkResponse 502 "Bad Gateway" []
                   (Throw (ThrownError "SyntaxError"
                             "Unexpected token < in JSON at position 0"))))).

(** A server that answers every request, but only after a minute. *)
Definition slow_server : Transport :=
  always (mkAttempt 60000 (Ok (ok_response (JStr "late")))).

(** A GET configuration with [n] retries and a base delay. *)
Definition retrying (n delay : Z) : RequestConfig :=
  mkRequestConfig (Some GET) None None None (Some n) (Some delay).

(** A GET configuration with a timeout of one second, two retries and a
    base delay of 100 ms. *)
Definition impatient : RequestConfig :=
  mkRequestConfig (Some GET) None None (Some 1000) (Some 2) (Some 100).

(** A GET configuration with five retries and nothing else. *)
Definition five_retries : RequestConfig :=
  mkRequestConfig (Some GET) None None None (Some 5) None.

(** A server that fails the first [k] attempts made since the trace was
    empty and answers [d] from then on. *)
Definition recovers_after (k : nat) (d : json) : Transport :=
  fun w _ _ =>
    if (length (fetches (trace w)) <? k)%nat
    then mkAttempt 20 (Throw (ThrownError "TypeError" "fetch failed"))
    else mkAttempt 20 (Ok (ok_response d)).

(** A server that answers every request with status 204 and an empty
    body, which [response.json()] cannot parse. *)
Definition no_content : Transport :=
  always (mkAttempt 20
            (Ok (mkResponse 204 "No Content" []
                   (Throw (ThrownError "SyntaxError" "Unexpected end of JSON input"))))).

(** * Properties *)

(** ** The retry wrapper *)

Section RetryWrapper.
Variable transport : Transport.
Variables (url : string) (options : RequestInit).

Lemma fetchWithRetry_step retries delay s :
  fetchWithRetry transport url options retries delay s =
  match fetch transport url options s with
  | (Ok response, s1) => (Ok response, s1)
  | (Throw error, s1) =>
      if decide (retries > 0)
      then fetchWithRetry transport url options (retries - 1) (delay * 2)
             (snd (wait delay s1))
      else (Throw error, s1)
  end.
Proof.
  rewrite fetchWithRetry_equation_1.
  destruct (fetch transport url options s) as [[response|error] s1];
    simpl; [reflexivity|].
  destruct (Z_gt_dec retries 0), (decide (retries > 0)); simpl;
    (reflexivity || lia).
Qed.

Lemma fetches_retry_events delay k :
  fetches (retry_events url options delay k) = replicate (S k) (url, options).
Proof.
  revert delay. induction k as [|k IH]; intros delay; [reflexivity|].
  cbn [retry_events fetches flat_map app].
  fold (fetches (retry_events url options (delay * 2) k)).
  rewrite IH. reflexivity.
Qed.

Lemma waits_retry_events delay k :
  waits (retry_events url options delay k)
  = map (fun i => delay * 2 ^ Z.of_nat i) (seq 0 k).
Proof.
  revert delay. induction k as [|k IH]; intros delay; [reflexivity|].
  cbn [retry_events waits flat_map app seq map].
  f_equal; [cbn; lia|].
  fold (waits (retry_events url options (delay * 2) k)).
  rewrite IH, <- seq_shift, map_map.
  apply map_ext. intros i.
  rewrite Nat2Z.inj_succ, Z.pow_succ_r by lia. lia.
Qed.

(** What one run of the retry wrapper does. *)
Lemma fetchWithRetry_run retries delay s :
  exists (k : nat) (w : World),
    Z.of_nat k <= Z.max 0 retries /\
    self (snd (fetchWithRetry transport url options retries delay s)) = self s /\
    trace (world (snd (fetchWithRetry transport url options retries delay s)))
      = trace (world s) ++ retry_events url options delay k /\
    trace (world (snd (fetchWithRetry transport url options retries delay s)))
      = trace w ++ [EvFetch url options] /\
    fst (fetchWithRetry transport url options retries delay s)
      = outcome (transport w url options) /\
    during s w /\
    (forall t, fst (fetchWithRetry transport url options retries delay s) = Throw t ->
               Z.of_nat k = Z.max 0 retries).
Proof.
  remember (Z.to_nat retries) as n eqn:Hn.
  revert retries delay s Hn.
  induction n as [|n IH]; intros retries delay s Hn;
    rewrite fetchWithRetry_step; unfold fetch;
    destruct (outcome (transport (world s) url options)) as [response|error] eqn:Hout.
  - exists 0%nat, (world s). simpl. rewrite Hout.
    repeat split; try lia; try done. exists []. rewrite app_nil_r. reflexivity.
  - destruct (decide (retries > 0)); [lia|].
    exists 0%nat, (world s). simpl. rewrite Hout.
    repeat split; try lia; try done. exists []. rewrite app_nil_r. reflexivity.
  - exists 0%nat, (world s). simpl. rewrite Hout.
    repeat split; try lia; try done. exists []. rewrite app_nil_r. reflexivity.
  - destruct (decide (retries > 0)); [|lia].
    set (s2 := snd (wait delay _)).
    destruct (IH (retries - 1) (delay * 2) s2 ltac:(lia))
      as (k & w & Hk & Hself & Htr & Hlast & Hres & [evs Hdur] & Hex).
    exists (S k), w. rewrite Hself, Htr, Hres.
    repeat split; try lia.
    + subst s2. simpl. rewrite <- !app_assoc. reflexivity.
    + rewrite <- Htr. exact Hlast.
    + exists ([EvFetch url options; EvWait delay] ++ evs).
      rewrite Hdur. subst s2. simpl. rewrite <- !app_assoc. reflexivity.
    + intros t Ht. rewrite <- Hres in Ht. specialize (Hex t Ht). lia.
Qed.
End RetryWrapper.

Lemma abort_timers_retry_events url options delay k :
  abort_timers (retry_events url options delay k) = [].
Proof.
  revert delay. induction k as [|k IH]; intros delay; [reflexivity|].
  cbn [retry_events abort_timers flat_map app]. apply IH.
Qed.

Lemma events_of_app {A} (m : M A) (s : Sys) (evs : list event) :
  trace (world (snd (m s))) = trace (world s) ++ evs ->
  events_of m s = evs.
Proof. intros H. unfold events_of. rewrite H. apply drop_app_length. Qed.

Lemma fetchWithRetry_first_ok transport url options retries delay s response :
  outcome (transport (world s) url options) = Ok response ->
  fetchWithRetry transport url options retries delay s
  = (Ok response,
     mkSys (self s)
       (mkWorld (now (world s) + elapsed (transport (world s) url options))
                (trace (world s) ++ [EvFetch url options])
                (abort_timer (world s)))).
Proof.
  intros H. rewrite fetchWithRetry_step. unfold fetch. rewrite H. reflexivity.
Qed.

Lemma fetchWithRetry_trace transport url options retries delay s :
  exists k : nat,
    Z.of_nat k <= Z.max 0 retries /\
    events_of (fetchWithRetry transport url options retries delay) s
    = retry_events url options delay k.
Proof.
  destruct (fetchWithRetry_run transport url options retries delay s)
    as (k & w & Hk & _ & Htr & _).
  exists k. split; [exact Hk|]. apply events_of_app. exact Htr.
Qed.

Lemma fetchWithRetry_frame transport url options retries delay c c' w :
  fetchWithRetry transport url options retries delay (mkSys c' w)
  = (fst (fetchWithRetry transport url options retries delay (mkSys c w)),
     mkSys c' (world (snd (fetchWithRetry transport url options retries delay (mkSys c w))))).
Proof.
  remember (Z.to_nat retries) as n eqn:Hn.
  revert retries delay w Hn.
  induction n as [|n IH]; intros retries delay w Hn;
    rewrite !(fetchWithRetry_step transport url options retries); unfold fetch; simpl;
    destruct (outcome (transport w url options)) as [response|error]; try reflexivity;
    destruct (decide (retries > 0)); try reflexivity; try lia.
  unfold wait; simpl. apply IH. lia.
Qed.

(** ** Request execution *)

Lemma request_unfold transport endpoint config s :
  request transport endpoint config s =
  let s1 := armed config s in
  match fetchWithRetry transport (request_url (self s) endpoint)
          (request_options (self s) config)
          (js_or (retries config) 0) (js_or (retryDelay config) 1000) s1 with
  | (Ok response, s2) =>
      match respond response with
      | Ok r => (Ok r, disarm s2)
      | Throw t => (Throw (classify t), disarm (disarm s2))
      end
  | (Throw t, s2) => (Throw (classify t), disarm s2)
  end.
Proof.
  unfold request, try_catch, mbind, client_bind, bind, get_self, setTimeout_abort,
    clearTimeout, mret, client_ret, ret, await, throw, respond.
  cbn -[fetchWithRetry].
  fold (request_url (self s) endpoint). fold (request_options (self s) config).
  unfold armed, arm, disarm, setTimeout_abort, clearTimeout. simpl.
  destruct (fetchWithRetry _ _ _ _ _ _) as [[response|t] s2]; simpl.
  - destruct (r_json response) as [d|t]; simpl.
    + destruct (r_ok response); simpl; reflexivity.
    + destruct t as [e|name msg|name|]; simpl; try reflexivity.
      * destruct (String.eqb name "AbortError"); reflexivity.
      * destruct (bool_decide _); reflexivity.
  - destruct t as [e|name msg|name|]; simpl; try reflexivity.
    * destruct (String.eqb name "AbortError"); reflexivity.
    * destruct (bool_decide _); reflexivity.
Qed.

Lemma request_run transport endpoint config s :
  let url := request_url (self s) endpoint in
  let options := request_options (self s) config in
  let run := request transport endpoint config s in
  exists (k : nat) (w : World),
    Z.of_nat k <= Z.max 0 (js_or (retries config) 0) /\
    self (snd run) = self s /\
    events_of (request transport endpoint config) s
      = EvSetAbortTimer (js_or (timeout config) (defaultTimeout (self s)))
          :: retry_events url options (js_or (retryDelay config) 1000) k
          ++ clears_after (outcome (transport w url options)) /\
    trace (world (snd run))
      = trace w ++ EvFetch url options
          :: clears_after (outcome (transport w url options)) /\
    fst run = settle (outcome (transport w url options)) /\
    during s w /\
    (forall t, outcome (transport w url options) = Throw t ->
               Z.of_nat k = Z.max 0 (js_or (retries config) 0)).
Proof.
  cbv zeta.
  set (url := request_url (self s) endpoint).
  set (options := request_options (self s) config).
  destruct (fetchWithRetry_run transport url options
              (js_or (retries config) 0) (js_or (retryDelay config) 1000)
              (armed config s))
    as (k & w & Hk & Hself & Htr & Hlast & Hres & [evs Hdur] & Hex).
  exists k, w.
  assert (Hduring : during s w).
  { exists (EvSetAbortTimer (js_or (timeout config) (defaultTimeout (self s))) :: evs).
    rewrite Hdur. unfold armed, arm, disarm. simpl.
    rewrite <- app_assoc. reflexivity. }
  rewrite request_unfold. cbv zeta.
  fold url options.
  destruct (fetchWithRetry transport url options _ _ (armed config s))
    as [[response|t] s2] eqn:Hrun; simpl in *;
    unfold settle, clears_after; rewrite <- Hres;
    [destruct (respond response) as [r|t] eqn:Hresp|];
    (repeat split; try done;
     [ apply events_of_app; rewrite request_unfold; cbv zeta;
       fold url options;
       rewrite Hrun, ?Hresp; simpl; rewrite Htr; unfold armed, arm, disarm; simpl;
       rewrite <- !app_assoc; reflexivity
     | simpl; rewrite Hlast, <- !app_assoc; reflexivity ]).
Qed.

Lemma request_self transport endpoint config s :
  self (snd (request transport endpoint config s)) = self s.
Proof.
  destruct (request_run transport endpoint config s) as (k & w & _ & H & _).
  exact H.
Qed.

Lemma sys_eta s : mkSys (self s) (world s) = s.
Proof. destruct s; reflexivity. Qed.

Lemma with_cache_same c : with_cache c (cache c) = c.
Proof. destruct c; reflexivity. Qed.

Lemma request_frame transport endpoint config s entries :
  request transport endpoint config (mkSys (with_cache (self s) entries) (world s))
  = (fst (request transport endpoint config s),
     mkSys (with_cache (self s) entries)
           (world (snd (request transport endpoint config s)))).
Proof.
  rewrite !request_unfold. cbv zeta. unfold armed, arm, disarm. simpl.
  change (request_url (with_cache (self s) entries) endpoint)
    with (request_url (self s) endpoint).
  change (request_options (with_cache (self s) entries) config)
    with (request_options (self s) config).
  rewrite (fetchWithRetry_frame transport _ _ _ _ (self s) (with_cache (self s) entries)).
  destruct (fetchWithRetry _ _ _ _ _ (mkSys (self s) _)) as [[response|t] s2]; simpl.
  - destruct (respond response); reflexivity.
  - reflexivity.
Qed.

Lemma request_world_frame transport endpoint config s entries :
  world (snd (request transport endpoint config
                (mkSys (with_cache (self s) entries) (world s))))
  = world (snd (request transport endpoint config s)).
Proof. rewrite request_frame. reflexivity. Qed.

Lemma projections_app (tr1 tr2 : list event) :
  fetches (tr1 ++ tr2) = fetches tr1 ++ fetches tr2 /\
  waits (tr1 ++ tr2) = waits tr1 ++ waits tr2 /\
  abort_timers (tr1 ++ tr2) = abort_timers tr1 ++ abort_timers tr2.
Proof. unfold fetches, waits, abort_timers. rewrite !flat_map_app. done. Qed.

Lemma clears_after_silent o :
  fetches (clears_after o) = [] /\ waits (clears_after o) = [] /\
  abort_timers (clears_after o) = [].
Proof.
  destruct o as [response|t]; simpl; [|done].
  destruct (respond response); done.
Qed.

Lemma projections_request_events ms url options delay k o :
  let evs := EvSetAbortTimer ms :: retry_events url options delay k
               ++ clears_after o in
  fetches evs = replicate (S k) (url, options) /\
  waits evs = map (fun i => delay * 2 ^ Z.of_nat i) (seq 0 k) /\
  abort_timers evs = [ms].
Proof.
  cbv zeta. change (?a :: ?l ++ ?c) with ([a] ++ l ++ c).
  destruct (projections_app [EvSetAbortTimer ms]
              (retry_events url options delay k ++ clears_after o))
    as (-> & -> & ->).
  destruct (projections_app (retry_events url options delay k) (clears_after o))
    as (-> & -> & ->).
  destruct (clears_after_silent o) as (-> & -> & ->).
  rewrite fetches_retry_events, waits_retry_events, abort_timers_retry_events,
    !app_nil_r.
  done.
Qed.

(** The events of one [request], projected. *)
Lemma request_projections transport endpoint config s :
  exists k : nat,
    Z.of_nat k <= Z.max 0 (js_or (retries config) 0) /\
    fetches (events_of (request transport endpoint config) s)
      = replicate (S k) (request_url (self s) endpoint,
                         request_options (self s) config) /\
    waits (events_of (request transport endpoint config) s)
      = map (fun i => js_or (retryDelay config) 1000 * 2 ^ Z.of_nat i) (seq 0 k) /\
    abort_timers (events_of (request transport endpoint config) s)
      = [js_or (timeout config) (defaultTimeout (self s))].
Proof.
  destruct (request_run transport endpoint config s)
    as (k & w & Hk & _ & Hev & _).
  exists k. rewrite Hev. apply (conj Hk).
  apply projections_request_events.
Qed.

Lemma fetchWithRetry_along transport url options a b :
  rtc (retry_step transport url options) a b ->
  fetchWithRetry transport url options a.1.1 a.1.2 a.2
  = fetchWithRetry transport url options b.1.1 b.1.2 b.2.
Proof.
  induction 1 as [a|a b c Hstep _ IH]; [reflexivity|].
  rewrite <- IH. destruct Hstep as [retries delay s error s1 Hfetch Hpos]. simpl.
  rewrite fetchWithRetry_step, Hfetch.
  destruct (decide (retries > 0)); [reflexivity|contradiction].
Qed.

Lemma request_from_attempt transport endpoint config s retries' delay' s' :
  attempt_of transport endpoint config s (retries', delay', s') ->
  request transport endpoint config s =
  match fetchWithRetry transport (request_url (self s) endpoint)
          (request_options (self s) config) retries' delay' s' with
  | (Ok response, s2) =>
      match respond response with
      | Ok r => (Ok r, disarm s2)
      | Throw t =>
          (Throw (classify t),
           disarm (disarm s2))
      end
  | (Throw t, s2) => (Throw (classify t), disarm s2)
  end.
Proof.
  intros H. apply fetchWithRetry_along in H. simpl in H.
  rewrite request_unfold. cbv zeta.
  rewrite H. reflexivity.
Qed.

(** ** The attempts of a call *)

(** One retry: what it takes and what it leaves. *)
Lemma retry_step_inv transport url options a b :
  retry_step transport url options a b ->
  a.1.1 > 0 /\
  (exists error, outcome (transport (world a.2) url options) = Throw error) /\
  b.1 = (a.1.1 - 1, a.1.2 * 2) /\
  self b.2 = self a.2 /\
  abort_timer (world b.2) = abort_timer (world a.2) /\
  trace (world b.2) = trace (world a.2) ++ [EvFetch url options; EvWait a.1.2] /\
  now (world b.2)
    = now (world a.2) + elapsed (transport (world a.2) url options)
      + timer_delay a.1.2.
Proof.
  intros [retries delay s error s1 Hfetch Hpos]. simpl.
  unfold fetch in Hfetch. injection Hfetch as Hout <-. simpl.
  rewrite <- app_assoc. eauto 10.
Qed.

(** The attempt made after [k] failed ones. *)
Lemma nsteps_retry transport url options (k : nat) :
  forall retries delay s a,
  nsteps (retry_step transport url options) k (retries, delay, s) a ->
  a.1 = (retries - Z.of_nat k, delay * 2 ^ Z.of_nat k) /\
  fetchWithRetry transport url options retries delay s
    = fetchWithRetry transport url options a.1.1 a.1.2 a.2 /\
  self a.2 = self s /\
  abort_timer (world a.2) = abort_timer (world s) /\
  forall j,
    trace (world a.2) ++ retry_events url options a.1.2 j
    = trace (world s) ++ retry_events url options delay (k + j).
Proof.
  induction k as [|k IH]; intros retries delay s a Hsteps.
  - inversion Hsteps; subst. simpl.
    rewrite Z.sub_0_r, Z.mul_1_r. done.
  - inversion Hsteps as [|n x y z Hstep Hrest]; subst.
    pose proof (fetchWithRetry_along transport url options _ _
                  (rtc_once _ _ Hstep)) as Halong.
    destruct (retry_step_inv _ _ _ _ _ Hstep)
      as (_ & _ & Hy & Hself & Htimer & Htrace & _).
    destruct y as [[retries' delay'] s']. simpl in *.
    injection Hy as -> ->.
    destruct (IH _ _ _ _ Hrest) as (Ha & Hrun & Hself' & Htimer' & Hev).
    destruct a as [[ra da] sa]. simpl in *. injection Ha as -> ->.
    split; [f_equal; [lia|]|].
    { rewrite Nat2Z.inj_succ, Z.pow_succ_r by lia. lia. }
    split; [rewrite Halong; exact Hrun|].
    split; [congruence|]. split; [congruence|].
    intros j. rewrite Hev, Htrace, <- app_assoc. reflexivity.
Qed.

(** When every attempt from some attempt on throws, the wrapper uses up
    its retries and throws what the last attempt threw. *)
Lemma fetchWithRetry_exhausted transport url options (n : nat) :
  forall retries delay s,
  Z.to_nat retries = n ->
  (forall a,
     rtc (retry_step transport url options) (retries, delay, s) a ->
     exists t, outcome (transport (world a.2) url options) = Throw t) ->
  exists a t,
    nsteps (retry_step transport url options) n (retries, delay, s) a /\
    outcome (transport (world a.2) url options) = Throw t /\
    fst (fetchWithRetry transport url options retries delay s) = Throw t /\
    trace (world (snd (fetchWithRetry transport url options retries delay s)))
      = trace (world a.2) ++ [EvFetch url options].
Proof.
  induction n as [|n IH]; intros retries delay s Hn Hthrow.
  - destruct (Hthrow _ (rtc_refl _ _)) as [t Ht]. simpl in Ht.
    exists (retries, delay, s), t. split; [constructor|]. split; [exact Ht|].
    rewrite fetchWithRetry_step. unfold fetch. rewrite Ht.
    destruct (decide (retries > 0)); [lia|]. done.
  - destruct (Hthrow _ (rtc_refl _ _)) as [t Ht]. simpl in Ht.
    assert (Hstep : retry_step transport url options (retries, delay, s)
                      (retries - 1, delay * 2,
                       snd (wait delay (snd (fetch transport url options s))))).
    { apply retry_step_intro with t; [|lia].
      unfold fetch. rewrite Ht. reflexivity. }
    destruct (IH (retries - 1) (delay * 2)
                (snd (wait delay (snd (fetch transport url options s)))))
      as (a & t' & Hsteps & Hout & Hres & Htr); [lia| |].
    { intros a Ha. apply Hthrow. eapply rtc_l; [exact Hstep|exact Ha]. }
    exists a, t'. split; [eapply nsteps_l; [exact Hstep|exact Hsteps]|].
    split; [exact Hout|].
    pose proof (fetchWithRetry_along transport url options _ _ (rtc_once _ _ Hstep))
      as Halong.
    simpl in Halong. rewrite Halong. done.
Qed.

(** The events of a [request] whose retry wrapper made [n] retries. *)
Lemma request_events_of_run transport endpoint config s (n : nat) :
  let url := request_url (self s) endpoint in
  let options := request_options (self s) config in
  trace (world (snd (fetchWithRetry transport url options
                       (js_or (retries config) 0) (js_or (retryDelay config) 1000)
                       (armed config s))))
    = trace (world (armed config s))
        ++ retry_events url options (js_or (retryDelay config) 1000) n ->
  events_of (request transport endpoint config) s
    = EvSetAbortTimer (js_or (timeout config) (defaultTimeout (self s)))
        :: retry_events url options (js_or (retryDelay config) 1000) n
        ++ clears_after
             (fst (fetchWithRetry transport url options
                     (js_or (retries config) 0) (js_or (retryDelay config) 1000)
                     (armed config s))) /\
  fst (request transport endpoint config s)
    = settle (fst (fetchWithRetry transport url options
                     (js_or (retries config) 0) (js_or (retryDelay config) 1000)
                     (armed config s))).
Proof.
  intros url options Htr.
  unfold events_of. rewrite request_unfold. cbv zeta. fold url options.
  destruct (fetchWithRetry transport url options _ _ (armed config s))
    as [[response|t] s2]; simpl in *.
  - destruct (respond response); simpl; (split; [|reflexivity]);
      rewrite Htr; unfold armed, arm; simpl;
      rewrite <- !app_assoc; apply drop_app_length.
  - split; [|reflexivity]. rewrite Htr. unfold armed, arm. simpl.
    rewrite <- !app_assoc. apply drop_app_length.
Qed.

(** ** Backoff *)

(** C7, as amended. The wait before the retry number [k + 1] of a call is
    [delay * 2 ^ k], where [delay] is [config.retryDelay || 1000]: the
    [retryDelay] of the configuration, and 1000 ms when that is absent or
    zero. When the attempt number [k + 1] throws with retries left, the
    wrapper waits that long -- the clock moves on by [timer_delay] of it,
    which is the wait itself within the range of the runtime's timers --
    and makes the next attempt with one retry less and the delay doubled.
    The whole call then makes some [n > k] retries, at most
    [config.retries] of them, and its waits are [delay * 2 ^ (i - 1)] for
    [i = 1 .. n]. *)
Theorem backoff_doubles transport endpoint config s (k : nat) a b :
  let url := request_url (self s) endpoint in
  let options := request_options (self s) config in
  let delay := js_or (retryDelay config) 1000 in
  let evs := events_of (request transport endpoint config) s in
  nth_attempt transport endpoint config s k a ->
  retry_step transport url options a b ->
  (a.1 = (js_or (retries config) 0 - Z.of_nat k, delay * 2 ^ Z.of_nat k) /\
   b.1 = (js_or (retries config) 0 - Z.of_nat k - 1, delay * 2 ^ Z.of_nat k * 2) /\
   trace (world b.2)
     = trace (world a.2) ++ [EvFetch url options; EvWait (delay * 2 ^ Z.of_nat k)] /\
   now (world b.2)
     = now (world a.2) + elapsed (transport (world a.2) url options)
       + timer_delay (delay * 2 ^ Z.of_nat k) /\
   nth_attempt transport endpoint config s (S k) b) /\
  exists n : nat,
    (k < n)%nat /\
    Z.of_nat n <= js_or (retries config) 0 /\
    length (fetches evs) = S n /\
    waits evs = map (fun i => delay * 2 ^ (Z.of_nat i - 1)) (seq 1 n).
Proof.
  intros url options delay evs Hnth Hstep.
  unfold nth_attempt in *. fold url options delay in Hnth |- *.
  destruct (nsteps_retry _ _ _ _ _ _ _ _ Hnth) as (Ha & _).
  destruct (retry_step_inv _ _ _ _ _ Hstep)
    as (Hpos & _ & Hb & _ & _ & Htrace & Hnow).
  pose proof (nsteps_r _ _ _ _ Hnth Hstep) as Hnext.
  rewrite Ha in Hb, Htrace, Hnow, Hpos. simpl in Hb, Htrace, Hnow, Hpos.
  split; [repeat split; assumption|].
  destruct (nsteps_retry _ _ _ _ _ _ _ _ Hnext) as (Hb' & Hrun & _ & _ & Hev).
  destruct (fetchWithRetry_run transport url options b.1.1 b.1.2 b.2)
    as (k' & w & Hk' & _ & Htr & _).
  rewrite <- Hrun, Hev in Htr.
  destruct (request_events_of_run transport endpoint config s (S k + k') Htr)
    as [Hevs _].
  fold url options delay evs in Hevs.
  exists (S k + k')%nat. rewrite Hevs.
  destruct (projections_request_events
              (js_or (timeout config) (defaultTimeout (self s))) url options delay
              (S k + k')
              (fst (fetchWithRetry transport url options (js_or (retries config) 0)
                      delay (armed config s)))) as (-> & -> & _).
  rewrite length_replicate. rewrite Hb in Hk'. simpl in Hk'.
  repeat split; try lia.
  rewrite <- seq_shift, map_map. apply map_ext. intros i. f_equal. f_equal. lia.
Qed.

(** C7, witness: two retries with a base delay of 100 ms on a network that
    cannot be reached; the second retry. *)
Lemma backoff_doubles_witness :
  let s := fresh "https://api.example.com" in
  let transport := signal_aware unreachable in
  let config := retrying 2 100 in
  let url := request_url (self s) "/users" in
  let options := request_options (self s) config in
  let a := (1, 200, snd (wait 100 (snd (fetch transport url options (armed config s))))) in
  let b := (0, 400, snd (wait 200 (snd (fetch transport url options a.2)))) in
  let evs := events_of (request transport "/users" config) s in
  (a.1 = (js_or (retries config) 0 - Z.of_nat 1,
          js_or (retryDelay config) 1000 * 2 ^ Z.of_nat 1) /\
   b.1 = (js_or (retries config) 0 - Z.of_nat 1 - 1,
          js_or (retryDelay config) 1000 * 2 ^ Z.of_nat 1 * 2) /\
   trace (world b.2)
     = trace (world a.2)
         ++ [EvFetch url options;
             EvWait (js_or (retryDelay config) 1000 * 2 ^ Z.of_nat 1)] /\
   now (world b.2)
     = now (world a.2) + elapsed (transport (world a.2) url options)
       + timer_delay (js_or (retryDelay config) 1000 * 2 ^ Z.of_nat 1) /\
   nth_attempt transport "/users" config s 2 b) /\
  exists n : nat,
    (1 < n)%nat /\
    Z.of_nat n <= js_or (retries config) 0 /\
    length (fetches evs) = S n /\
    waits evs
      = map (fun i => js_or (retryDelay config) 1000 * 2 ^ (Z.of_nat i - 1)) (seq 1 n).
Proof.
  apply (backoff_doubles (signal_aware unreachable) "/users" (retrying 2 100)
           (fresh "https://api.example.com") 1).
  - eapply nsteps_l; [|apply nsteps_O].
    apply (retry_step_intro _ _ _ 2 100 _ (ThrownError "TypeError" "fetch failed"));
      [reflexivity|lia].
  - apply (retry_step_intro _ _ _ 1 200 _ (ThrownError "TypeError" "fetch failed"));
      [reflexivity|lia].
Defined.

(** C7, counterexample to the claim as stated: with [retryDelay: 0] and two
    retries the waits are not 0 and 0 but 1000 ms and 2000 ms, and that
    much time passes: three attempts of 20 ms each end at time 3060. *)
Lemma zero_retry_delay_is_replaced :
  let s := fresh "https://api.example.com" in
  let run := request unreachable "/users" (retrying 2 0) s in
  let evs := events_of (request unreachable "/users" (retrying 2 0)) s in
  retryDelay (retrying 2 0) = Some 0 /\
  waits evs = [1000; 2000] /\
  length (fetches evs) = 3%nat /\
  now (world (snd run)) = 3060.
Proof. vm_compute. done. Qed.

(** ** Retry exhaustion *)

Lemma js_or_retries (n : Z) : js_or (Some n) 0 = n.
Proof.
  unfold js_or, truthy, truthy_number. destruct (n =? 0) eqn:H; simpl; [lia|done].
Qed.

Lemma classify_transport_failure t :
  transport_failure t ->
  classify t = ThrownApiError (mkApiError (failure_message t) 0 None).
Proof.
  intros (name & msg & -> & Hname). simpl.
  destruct (String.eqb name "AbortError") eqn:E; [|reflexivity].
  apply String.eqb_eq in E. contradiction.
Qed.

(** C6, as amended. A call configured with [retries = n], [n >= 0], whose
    every attempt throws, invokes the transport exactly [n + 1] times; the
    attempt number [n + 1] has no retry left, and the call throws what the
    [catch] clause of [request] makes of the value [t] that this last
    attempt threw. That is an [ApiError] with status 0 and the message of
    [t] when [t] is an [Error] other than an [ApiError] whose name is not
    [AbortError]; but it is the 408 error when [t] is the rejection for
    the aborted signal (an [Error] named [AbortError]), an [ApiError] is
    thrown unchanged, and a value that is no [Error] gives "Unknown
    error" with status 0. *)
Theorem retry_exhaustion transport endpoint config s n :
  let url := request_url (self s) endpoint in
  let options := request_options (self s) config in
  retries config = Some n ->
  0 <= n ->
  (forall retries' delay' s',
     attempt_of transport endpoint config s (retries', delay', s') ->
     exists t, outcome (transport (world s') url options) = Throw t) ->
  exists delay_last s_last t,
    nth_attempt transport endpoint config s (Z.to_nat n) (0, delay_last, s_last) /\
    outcome (transport (world s_last) url options) = Throw t /\
    trace (world (snd (request transport endpoint config s)))
      = trace (world s_last) ++ [EvFetch url options; EvClearAbortTimer] /\
    Z.of_nat (length (fetches (events_of (request transport endpoint config) s)))
      = n + 1 /\
    fst (request transport endpoint config s)
      = Throw
          match t with
          | ThrownApiError e => ThrownApiError e
          | ThrownError name msg =>
              if String.eqb name "AbortError"
              then ThrownApiError (mkApiError "Request timeout" 408 None)
              else ThrownApiError (mkApiError msg 0 None)
          | ThrownValue name =>
              if bool_decide (name = Some "AbortError"%string)
              then ThrownApiError (mkApiError "Request timeout" 408 None)
              else ThrownApiError (mkApiError "Unknown error" 0 None)
          | ThrownNullish is_null => nullish_read_error is_null
          end.
Proof.
  intros url options Hn Hpos Hthrow.
  destruct (fetchWithRetry_exhausted transport url options (Z.to_nat n)
              (js_or (retries config) 0) (js_or (retryDelay config) 1000)
              (armed config s))
    as (a & t & Hsteps & Hout & Hres & Htr).
  { rewrite Hn, js_or_retries. reflexivity. }
  { intros [[r' d'] s'] Ha. apply (Hthrow r' d' s'). exact Ha. }
  destruct (nsteps_retry _ _ _ _ _ _ _ _ Hsteps) as (Ha & _ & _ & _ & Hev).
  destruct a as [[r_last d_last] s_last]. simpl in *.
  injection Ha as Hr Hd.
  rewrite Hn, js_or_retries in Hr. rewrite Z2Nat.id in Hr by lia.
  replace r_last with 0 in * by lia.
  exists d_last, s_last, t.
  split; [exact Hsteps|]. split; [exact Hout|].
  specialize (Hev 0%nat). simpl in Hev. rewrite Nat.add_0_r in Hev.
  assert (Htr' : trace (world (snd (fetchWithRetry transport url options
                                      (js_or (retries config) 0)
                                      (js_or (retryDelay config) 1000)
                                      (armed config s))))
                 = trace (world (armed config s))
                     ++ retry_events url options (js_or (retryDelay config) 1000)
                          (Z.to_nat n)).
  { rewrite Htr. exact Hev. }
  destruct (request_events_of_run transport endpoint config s (Z.to_nat n) Htr')
    as [Hevs Hfst].
  fold url options in Hevs, Hfst. rewrite Hres in Hevs, Hfst.
  split; [|split].
  - rewrite request_unfold. cbv zeta. fold url options.
    destruct (fetchWithRetry transport url options _ _ (armed config s))
      as [[response|t'] s2]; simpl in *; [discriminate|].
    rewrite Htr, <- app_assoc. reflexivity.
  - rewrite Hevs.
    destruct (projections_request_events
                (js_or (timeout config) (defaultTimeout (self s))) url options
                (js_or (retryDelay config) 1000) (Z.to_nat n) (Throw t)) as (-> & _).
    rewrite length_replicate. lia.
  - rewrite Hfst. simpl. destruct t; reflexivity.
Qed.

(** C6, witness: two retries through a [fetch] that honours the abort
    signal, on a network that cannot be reached. *)
Lemma retry_exhaustion_witness :
  let s := fresh "https://api.example.com" in
  let transport := signal_aware unreachable in
  let config := retrying 2 100 in
  let url := request_url (self s) "/users" in
  let options := request_options (self s) config in
  exists delay_last s_last t,
    nth_attempt transport "/users" config s (Z.to_nat 2) (0, delay_last, s_last) /\
    outcome (transport (world s_last) url options) = Throw t /\
    trace (world (snd (request transport "/users" config s)))
      = trace (world s_last) ++ [EvFetch url options; EvClearAbortTimer] /\
    Z.of_nat (length (fetches (events_of (request transport "/users" config) s)))
      = 2 + 1 /\
    fst (request transport "/users" config s)
      = Throw
          match t with
          | ThrownApiError e => ThrownApiError e
          | ThrownError name msg =>
              if String.eqb name "AbortError"
              then ThrownApiError (mkApiError "Request timeout" 408 None)
              else ThrownApiError (mkApiError msg 0 None)
          | ThrownValue name =>
              if bool_decide (name = Some "AbortError"%string)
              then ThrownApiError (mkApiError "Request timeout" 408 None)
              else ThrownApiError (mkApiError "Unknown error" 0 None)
          | ThrownNullish is_null => nullish_read_error is_null
          end.
Proof.
  apply (retry_exhaustion (signal_aware unreachable) "/users" (retrying 2 100)
           (fresh "https://api.example.com") 2).
  - reflexivity.
  - lia.
  - intros retries' delay' s' _.
    unfold signal_aware, unreachable, fails_with, always.
    destruct (abort_timer (world s')) as [deadline|]; [|eauto].
    destruct (deadline <=? now (world s')); [eauto|].
    destruct (deadline <=? _); eauto.
Defined.

(** C6, counterexample to the claim as stated. The network cannot be
    reached, so every attempt throws, whatever the state of the host; with
    two retries the call ends in status 0, as the claim says. With five
    retries and the default delay the waits add up to 31 s; the abort
    timer, which spans the whole retry sequence, fires after 30 s, during
    the last wait; the sixth attempt is rejected for the aborted signal
    and the call throws the 408 error, not one with status 0. *)
Lemma exhausted_retries_end_in_timeout :
  let s := fresh "https://api.example.com" in
  let transport := signal_aware unreachable in
  let run := request transport "/users" five_retries s in
  let evs := events_of (request transport "/users" five_retries) s in
  (forall w url options, exists t, outcome (transport w url options) = Throw t) /\
  fst (request transport "/users" (retrying 2 100) s)
    = Throw (ThrownApiError (mkApiError "fetch failed" 0 None)) /\
  retries five_retries = Some 5 /\
  length (fetches evs) = 6%nat /\
  waits evs = [1000; 2000; 4000; 8000; 16000] /\
  now (world (snd run)) = 31100 /\
  fst run = Throw (ThrownApiError (mkApiError "Request timeout" 408 None)).
Proof.
  cbv zeta. split.
  - intros w url options.
    unfold signal_aware, unreachable, fails_with, always.
    destruct (abort_timer w) as [deadline|]; [|eauto].
    destruct (deadline <=? now w); [eauto|].
    destruct (deadline <=? _); eauto.
  - vm_compute. done.
Qed.

(** ** Timeouts *)

Lemma classify_abort t :
  abort_rejection t ->
  classify t = ThrownApiError (mkApiError "Request timeout" 408 None).
Proof. intros (msg & ->). reflexivity. Qed.

(** Whatever the transport, when every attempt from some attempt of a call
    on is rejected with an [AbortError], the retries that are left are used
    up before the call throws the 408 error. *)
Lemma abort_rejections_are_retried transport endpoint config s
    retries' delay' s' :
  let url := request_url (self s) endpoint in
  let options := request_options (self s) config in
  attempt_of transport endpoint config s (retries', delay', s') ->
  (forall w,
     during s' w ->
     exists t, outcome (transport w url options) = Throw t /\ abort_rejection t) ->
  fst (request transport endpoint config s)
    = Throw (ThrownApiError (mkApiError "Request timeout" 408 None)) /\
  trace (world (snd (request transport endpoint config s)))
    = trace (world s')
        ++ retry_events url options delay' (Z.to_nat retries')
        ++ [EvClearAbortTimer] /\
  fetches (retry_events url options delay' (Z.to_nat retries'))
    = replicate (S (Z.to_nat retries')) (url, options) /\
  waits (retry_events url options delay' (Z.to_nat retries'))
    = map (fun i => delay' * 2 ^ Z.of_nat i) (seq 0 (Z.to_nat retries')).
Proof.
  intros url options Hattempt Habort.
  rewrite (request_from_attempt _ _ _ _ _ _ _ Hattempt). fold url options.
  destruct (fetchWithRetry_run transport url options retries' delay' s')
    as (k & w & Hk & _ & Htr & _ & Hres & Hdur & Hex).
  destruct (Habort w Hdur) as (t & Hout & Ht).
  destruct (fetchWithRetry transport url options retries' delay' s')
    as [[response|t'] s2]; simpl in *; rewrite Hout in Hres; [discriminate|].
  injection Hres as ->. specialize (Hex _ eq_refl).
  replace (Z.to_nat retries') with k by lia.
  rewrite classify_abort by exact Ht. rewrite Htr, <- app_assoc.
  rewrite fetches_retry_events, waits_retry_events. done.
Qed.

Lemma signal_aware_aborts network url options w :
  timer_fires_first network url options w ->
  outcome (signal_aware network w url options) = Throw abort_error /\
  exists deadline,
    abort_timer w = Some deadline /\
    deadline <= now w + elapsed (signal_aware network w url options).
Proof.
  intros (deadline & Ht & Hd). unfold signal_aware. rewrite Ht.
  destruct (Z.leb_spec deadline (now w)).
  - split; [reflexivity|]. exists deadline. simpl. split; [done|lia].
  - destruct (Z.leb_spec deadline (now w + elapsed (network w url options))); [|lia].
    split; [reflexivity|]. exists deadline. simpl. split; [done|lia].
Qed.

Lemma timer_delay_pos ms : 1 <= timer_delay ms.
Proof.
  unfold timer_delay. destruct (Z.leb_spec 1 ms); simpl; [|lia].
  destruct (ms <=? TIMEOUT_MAX); lia.
Qed.

(** From an attempt that the timer cuts short, the retry wrapper uses up
    its retries on the aborted signal. *)
Lemma fetchWithRetry_aborted network url options retries delay s :
  (forall w u o, 0 <= elapsed (network w u o)) ->
  timer_fires_first network url options (world s) ->
  fst (fetchWithRetry (signal_aware network) url options retries delay s)
    = Throw abort_error /\
  trace (world (snd (fetchWithRetry (signal_aware network) url options
                       retries delay s)))
    = trace (world s) ++ retry_events url options delay (Z.to_nat retries).
Proof.
  intros Hpos.
  remember (Z.to_nat retries) as n eqn:Hn.
  revert retries delay s Hn.
  induction n as [|n IH]; intros retries delay s Hn Hfires;
    rewrite fetchWithRetry_step; unfold fetch;
    destruct (signal_aware_aborts _ _ _ _ Hfires) as (Hout & deadline & Ht & Hd);
    rewrite Hout.
  - destruct (decide (retries > 0)); [lia|]. simpl. done.
  - destruct (decide (retries > 0)); [|lia].
    destruct (IH (retries - 1) (delay * 2)
                (snd (wait delay
                   (mkSys (self s)
                      (mkWorld
                         (now (world s)
                          + elapsed (signal_aware network (world s) url options))
                         (trace (world s) ++ [EvFetch url options])
                         (abort_timer (world s)))))))
      as [Hres Htr]; [lia| |].
    + exists deadline. simpl. split; [exact Ht|].
      pose proof (Hpos (mkWorld
              (now (world s) +
               elapsed (signal_aware network (world s) url options) +
               timer_delay delay) ((trace (world s) ++ [EvFetch url options]) ++ [EvWait delay])
              (abort_timer (world s))) url options).
      pose proof (timer_delay_pos delay). lia.
    + split; [exact Hres|]. rewrite Htr. simpl. rewrite <- !app_assoc. reflexivity.
Qed.

Lemma classify_abort_error :
  classify abort_error = ThrownApiError (mkApiError "Request timeout" 408 None).
Proof. reflexivity. Qed.

(** C1, as amended. With a [fetch] that honours the abort signal: when the
    abort timer fires before an attempt of a call settles, the call throws
    [ApiError] with status 408 and message "Request timeout"; but the
    retry wrapper treats the rejection of the timed-out attempt like any
    other thrown failure: with [retries'] retries left at that attempt,
    the transport is invoked [retries' + 1] times from there on (each
    later attempt is rejected at once, the signal staying aborted), with
    the backoff waits in between, before the error is thrown. The
    timed-out attempt is the last one just when no retries are left. *)
Theorem timeout_raised_after_retries network endpoint config s
    retries' delay' s' :
  let transport := signal_aware network in
  let url := request_url (self s) endpoint in
  let options := request_options (self s) config in
  (forall w u o, 0 <= elapsed (network w u o)) ->
  attempt_of transport endpoint config s (retries', delay', s') ->
  timer_fires_first network url options (world s') ->
  fst (request transport endpoint config s)
    = Throw (ThrownApiError (mkApiError "Request timeout" 408 None)) /\
  trace (world (snd (request transport endpoint config s)))
    = trace (world s')
        ++ retry_events url options delay' (Z.to_nat retries')
        ++ [EvClearAbortTimer] /\
  fetches (retry_events url options delay' (Z.to_nat retries'))
    = replicate (S (Z.to_nat retries')) (url, options) /\
  waits (retry_events url options delay' (Z.to_nat retries'))
    = map (fun i => delay' * 2 ^ Z.of_nat i) (seq 0 (Z.to_nat retries')).
Proof.
  intros transport url options Hpos Hattempt Hfires.
  rewrite (request_from_attempt _ _ _ _ _ _ _ Hattempt). fold url options.
  destruct (fetchWithRetry_aborted network url options retries' delay' s' Hpos Hfires)
    as [Hres Htr].
  fold transport in Hres, Htr.
  destruct (fetchWithRetry transport url options retries' delay' s')
    as [[response|t] s2]; simpl in *; [discriminate|].
  injection Hres as ->.
  rewrite classify_abort_error, Htr, <- app_assoc.
  rewrite fetches_retry_events, waits_retry_events. done.
Qed.

(** C1, witness: a server that takes a minute, a timeout of one second,
    two retries; the timer fires during the first attempt. *)
Lemma timeout_raised_after_retries_witness :
  let s := fresh "https://api.example.com" in
  let url := request_url (self s) "/users" in
  let options := request_options (self s) impatient in
  fst (request (signal_aware slow_server) "/users" impatient s)
    = Throw (ThrownApiError (mkApiError "Request timeout" 408 None)) /\
  trace (world (snd (request (signal_aware slow_server) "/users" impatient s)))
    = trace (world (armed impatient s))
        ++ retry_events url options 100 (Z.to_nat 2)
        ++ [EvClearAbortTimer] /\
  fetches (retry_events url options 100 (Z.to_nat 2))
    = replicate (S (Z.to_nat 2)) (url, options) /\
  waits (retry_events url options 100 (Z.to_nat 2))
    = map (fun i => 100 * 2 ^ Z.of_nat i) (seq 0 (Z.to_nat 2)).
Proof.
  apply (timeout_raised_after_retries slow_server "/users" impatient
           (fresh "https://api.example.com") 2 100
           (armed impatient (fresh "https://api.example.com"))).
  - intros w u o. simpl. lia.
  - apply rtc_refl.
  - exists 1000. simpl. split; [reflexivity|lia].
Defined.

(** C1, counterexample to the claim as stated: the server takes a minute,
    the timer of 1000 ms fires during the first attempt, and with two
    retries configured the transport is invoked three times, with waits of
    100 ms and 200 ms, before the 408 error is thrown at time 1300: the
    timed-out attempt is retried. *)
Lemma timed_out_attempt_is_retried :
  let s := fresh "https://api.example.com" in
  let run := request (signal_aware slow_server) "/users" impatient s in
  let evs := events_of (request (signal_aware slow_server) "/users" impatient) s in
  abort_timers evs = [1000] /\
  fst run = Throw (ThrownApiError (mkApiError "Request timeout" 408 None)) /\
  length (fetches evs) = 3%nat /\
  waits evs = [100; 200] /\
  now (world (snd run)) = 1300.
Proof. vm_compute. done. Qed.

(** ** Error responses *)

(** C9, as amended. When the transport answers an attempt of a call -- the
    first one or one after failed attempts -- with a response whose status
    is outside 200-299 and whose body parses, the call throws [ApiError]
    with that status and the parsed body as its [response]. The response
    consumes no retry: its attempt is the last invocation of the
    transport, only the timer cancellations follow, whatever number of
    retries is left. *)
Theorem server_error_passthrough transport endpoint config s
    retries' delay' s' response d :
  let url := request_url (self s) endpoint in
  let options := request_options (self s) config in
  attempt_of transport endpoint config s (retries', delay', s') ->
  outcome (transport (world s') url options) = Ok response ->
  r_ok response = false ->
  r_json response = Ok d ->
  fst (request transport endpoint config s)
    = Throw (ThrownApiError
               (mkApiError
                  ("HTTP " ++ Text.number_to_string (r_status response) ++ ": "
                     ++ r_statusText response)%string
                  (r_status response) (Some d))) /\
  trace (world (snd (request transport endpoint config s)))
    = trace (world s') ++ [EvFetch url options; EvClearAbortTimer; EvClearAbortTimer].
Proof.
  intros url options Hattempt Hout Hok Hjson.
  rewrite (request_from_attempt _ _ _ _ _ _ _ Hattempt). fold url options.
  rewrite (fetchWithRetry_first_ok _ _ _ _ _ _ _ Hout).
  unfold respond. rewrite Hjson, Hok. simpl.
  rewrite <- !app_assoc. done.
Qed.

(** C9, witness: a server that answers 404 with a JSON body, three retries
    configured. *)
Lemma server_error_passthrough_witness :
  fst (request not_found "/users/7" (retrying 3 100) (fresh "https://api.example.com"))
    = Throw (ThrownApiError
               (mkApiError "HTTP 404: Not Found" 404
                  (Some (JObj [("error"%string, JStr "no such user")])))) /\
  trace (world (snd (request not_found "/users/7" (retrying 3 100)
                       (fresh "https://api.example.com"))))
    = trace (world (armed (retrying 3 100) (fresh "https://api.example.com")))
        ++ [EvFetch (request_url (self (fresh "https://api.example.com")) "/users/7")
              (request_options (self (fresh "https://api.example.com")) (retrying 3 100));
            EvClearAbortTimer; EvClearAbortTimer].
Proof.
  apply (server_error_passthrough not_found "/users/7" (retrying 3 100)
           (fresh "https://api.example.com") 3 100
           (armed (retrying 3 100) (fresh "https://api.example.com"))
           (mkResponse 404 "Not Found" []
              (Ok (JObj [("error"%string, JStr "no such user")])))
           (JObj [("error"%string, JStr "no such user")])).
  - apply rtc_refl.
  - reflexivity.
  - reflexivity.
  - reflexivity.
Defined.

(** C9, counterexample to the claim as stated: a gateway answers 502 with a
    body that is not JSON. The body is read before the status is checked,
    so the call throws the parse error with status 0, not an error with
    status 502; one attempt is made although three retries are
    configured. *)
Lemma unparseable_error_body :
  let s := fresh "https://api.example.com" in
  let evs := events_of (request bad_gateway "/users" (retrying 3 100)) s in
  (forall w url options,
     bad_gateway w url options
     = mkAttempt 20
         (Ok (mkResponse 502 "Bad Gateway" []
                (Throw (ThrownError "SyntaxError"
                          "Unexpected token < in JSON at position 0"))))) /\
  fst (request bad_gateway "/users" (retrying 3 100) s)
    = Throw (ThrownApiError
               (mkApiError "Unexpected token < in JSON at position 0" 0 None)) /\
  length (fetches evs) = 1%nat.
Proof. cbv zeta. split; [reflexivity|]. vm_compute. done. Qed.

(** ** The verb entry points *)

Lemma getFromCache_run key s :
  getFromCache key s = (Ok (data <$> live_entry key s), evict key s).
Proof.
  unfold getFromCache, live_entry, evict, mbind, client_bind, bind, get_self,
    Date_now, set_cache, mret, client_ret, ret.
  destruct (cache (self s) !! key) as [entry|]; [|reflexivity].
  destruct (now (world s) >? expiresAt entry); reflexivity.
Qed.

Lemma saveToCache_run key d ttl s :
  saveToCache key d (Some ttl) s = (Ok tt, stored key d ttl s).
Proof. reflexivity. Qed.

(** [get] spelled out: what is served from the cache and what goes to
    [request]. *)
Lemma get_unfold transport endpoint config cacheTtl s :
  get transport endpoint config cacheTtl s =
  let fullConfig := with_method GET config in
  let key := getCacheKey endpoint fullConfig in
  if truthy cacheTtl then
    if truthy (data <$> live_entry key s) then
      (Ok (default JNull (data <$> live_entry key s)), evict key s)
    else
      match request transport endpoint fullConfig (evict key s) with
      | (Ok response, s2) =>
          (Ok (res_data response),
           stored key (res_data response) (default 60000 cacheTtl) s2)
      | (Throw t, s2) => (Throw t, s2)
      end
  else
    match request transport endpoint fullConfig s with
    | (Ok response, s2) => (Ok (res_data response), s2)
    | (Throw t, s2) => (Throw t, s2)
    end.
Proof.
  unfold get. cbv zeta.
  destruct (truthy cacheTtl) eqn:Httl.
  - unfold mbind, client_bind, bind at 1. rewrite getFromCache_run.
    destruct (truthy (data <$> live_entry _ s)); [reflexivity|].
    unfold bind. destruct (request _ _ _ _) as [[response|t] s2]; reflexivity.
  - unfold mbind, client_bind, bind.
    destruct (request _ _ _ _) as [[response|t] s2]; reflexivity.
Qed.

Lemma evict_shape key s :
  exists entries, evict key s = mkSys (with_cache (self s) entries) (world s).
Proof.
  unfold evict. destruct (cache (self s) !! key) as [entry|].
  - destruct (now (world s) >? expiresAt entry); [eauto|].
    exists (cache (self s)). rewrite with_cache_same, sys_eta. reflexivity.
  - exists (cache (self s)). rewrite with_cache_same, sys_eta. reflexivity.
Qed.

Lemma events_of_silent {A} (m : M A) s :
  world (snd (m s)) = world s -> events_of m s = [].
Proof.
  intros H. unfold events_of. rewrite H. apply drop_all.
Qed.

Lemma events_of_same_world {A B} (m : M A) (m' : M B) s :
  world (snd (m s)) = world (snd (m' s)) -> events_of m s = events_of m' s.
Proof. intros H. unfold events_of. rewrite H. reflexivity. Qed.

(** A call adds no event at all, or the events of one [request] with the
    configuration its entry point builds. *)
Lemma call_events transport c s :
  events_of (run_call transport c) s = [] \/
  events_of (run_call transport c) s
  = events_of (request transport (call_endpoint c) (call_request_config c)) s.
Proof.
  destruct c as [endpoint config ttl|endpoint b config|endpoint b config
                |endpoint b config|endpoint config]; simpl.
  - destruct (evict_shape (getCacheKey endpoint (with_method GET config)) s)
      as [entries Hev].
    pose proof (request_world_frame transport endpoint (with_method GET config) s entries)
      as Hw.
    rewrite <- Hev in Hw.
    destruct (truthy ttl) eqn:Httl.
    + destruct (truthy (data <$> live_entry (getCacheKey endpoint (with_method GET config)) s))
        eqn:Hhit.
      * left. apply events_of_silent. rewrite get_unfold. cbv zeta.
        rewrite Httl, Hhit. simpl. rewrite Hev. reflexivity.
      * right. apply events_of_same_world. rewrite get_unfold. cbv zeta.
        rewrite Httl, Hhit, <- Hw.
        destruct (request _ _ _ (evict _ _)) as [[r|t] s2]; reflexivity.
    + right. apply events_of_same_world. rewrite get_unfold. cbv zeta.
      rewrite Httl. destruct (request _ _ _ s) as [[r|t] s2]; reflexivity.
  - right. apply events_of_same_world. unfold post, mbind, client_bind, bind.
    destruct (request _ _ _ s) as [[r|t] s2]; reflexivity.
  - right. apply events_of_same_world. unfold put, mbind, client_bind, bind.
    destruct (request _ _ _ s) as [[r|t] s2]; reflexivity.
  - right. apply events_of_same_world. unfold patch, mbind, client_bind, bind.
    destruct (request _ _ _ s) as [[r|t] s2]; reflexivity.
  - right. apply events_of_same_world. unfold delete_, mbind, client_bind, bind.
    destruct (request _ _ _ s) as [[r|t] s2]; reflexivity.
Qed.

Lemma call_timeout c : timeout (call_request_config c) = read (p_timeout (call_config c)).
Proof. destruct c; reflexivity. Qed.

Lemma call_method c : method (call_request_config c) = sent_method c.
Proof. destruct c; reflexivity. Qed.

Lemma call_headers c : headers (call_request_config c) = read (p_headers (call_config c)).
Proof. destruct c; reflexivity. Qed.

Lemma call_requests transport c s :
  Forall (fun r => r = (request_url (self s) (call_endpoint c),
                        request_options (self s) (call_request_config c)))
    (fetches (events_of (run_call transport c) s)).
Proof.
  destruct (call_events transport c s) as [-> | ->]; [constructor|].
  destruct (request_projections transport (call_endpoint c) (call_request_config c) s)
    as (k & _ & -> & _).
  apply Forall_replicate. reflexivity.
Qed.

(** C5, as amended. A call arms at most one abort timer (none when it is
    served from the cache), and its length is [timer_length]: the
    caller's [config.timeout] when that is supplied and not zero, and the
    default of 30000 ms when it is absent or zero, as
    [config.timeout || this.defaultTimeout] computes it. *)
Theorem abort_timer_length transport baseUrl defaultHeaders entries w c :
  let evs := events_of (run_call transport c)
               (mkSys (instance baseUrl defaultHeaders entries) w) in
  evs = [] \/ abort_timers evs = [timer_length c].
Proof.
  cbv zeta.
  destruct (call_events transport c (mkSys (instance baseUrl defaultHeaders entries) w))
    as [H|H]; [left; exact H|right].
  rewrite H.
  destruct (request_projections transport (call_endpoint c) (call_request_config c)
              (mkSys (instance baseUrl defaultHeaders entries) w))
    as (k & _ & _ & _ & ->).
  unfold timer_length. rewrite call_timeout. simpl.
  destruct (read (p_timeout (call_config c))) as [t|]; simpl; [|reflexivity].
  unfold truthy, truthy_number. destruct (t =? 0); reflexivity.
Qed.

(** C5, counterexample to the claim as stated: a call that supplies
    [timeout: 0] gets a timer of 30000 ms, not of 0 ms. *)
Lemma zero_timeout_is_replaced :
  let config := mkPartialConfig Absent Absent Absent (Present 0) Absent Absent in
  abort_timers (events_of (run_call (answers (JStr "pong")) (Get "/ping" config None))
                  (fresh "https://api.example.com"))
  = [30000].
Proof. vm_compute. reflexivity. Qed.

(** C3, as amended. Every request a verb entry point sends has the method
    [sent_method]: the verb of the entry point when the caller's
    configuration has no [method] property, and otherwise whatever that
    property holds, because the configuration is spread after the verb. *)
Theorem method_of_outgoing_requests transport c s :
  Forall (fun m => m = sent_method c)
    (outgoing_methods (events_of (run_call transport c) s)).
Proof.
  unfold outgoing_methods. apply Forall_map.
  eapply Forall_impl; [|apply call_requests].
  intros r ->. simpl. apply call_method.
Qed.

(** C3, counterexample to the claim as stated: [get] called with the
    configuration [{ method: "POST" }] sends a POST request. *)
Lemma config_changes_method :
  let config := mkPartialConfig (Present POST) Absent Absent Absent Absent Absent in
  outgoing_methods
    (events_of (run_call (answers (JStr "pong")) (Get "/ping" config None))
       (fresh "https://api.example.com"))
  = [Some POST].
Proof. vm_compute. reflexivity. Qed.

Lemma union_lookup (m1 m2 : gmap string string) key :
  (m1 ∪ m2) !! key = match m1 !! key with Some v => Some v | None => m2 !! key end.
Proof. rewrite lookup_union. destruct (m1 !! key), (m2 !! key); reflexivity. Qed.

Lemma request_fetches_nonempty transport endpoint config s :
  fetches (events_of (request transport endpoint config) s) <> [].
Proof.
  destruct (request_projections transport endpoint config s) as (k & _ & -> & _).
  discriminate.
Qed.

(** A [get] that finds no truthy data alive in the cache, or that has no
    TTL, asks of the host what its [request] asks. *)
Lemma get_goes_to_network transport endpoint config cacheTtl s :
  truthy cacheTtl
    && truthy (data <$> live_entry (getCacheKey endpoint (with_method GET config)) s)
  = false ->
  events_of (get transport endpoint config cacheTtl) s
  = events_of (request transport endpoint (with_method GET config)) s /\
  fetches (events_of (get transport endpoint config cacheTtl) s) <> [].
Proof.
  intros Hmiss.
  assert (E : events_of (get transport endpoint config cacheTtl) s
              = events_of (request transport endpoint (with_method GET config)) s).
  { destruct (evict_shape (getCacheKey endpoint (with_method GET config)) s)
      as [entries Hev].
    pose proof (request_world_frame transport endpoint (with_method GET config) s entries)
      as Hw.
    rewrite <- Hev in Hw.
    apply events_of_same_world. rewrite get_unfold. cbv zeta.
    destruct (truthy cacheTtl); simpl in Hmiss.
    - rewrite Hmiss, <- Hw.
      destruct (request _ _ _ (evict _ _)) as [[r|t] s2]; reflexivity.
    - destruct (request _ _ _ s) as [[r|t] s2]; reflexivity. }
  split; [exact E|]. rewrite E. apply request_fetches_nonempty.
Qed.

Lemma other_verbs_world transport c s :
  entry_point c <> GET ->
  world (snd (run_call transport c s))
  = world (snd (request transport (call_endpoint c) (call_request_config c) s)).
Proof.
  destruct c as [e cfg ttl|e b cfg|e b cfg|e b cfg|e cfg]; simpl; intros Hne;
    [contradiction| | | |];
    unfold post, put, patch, delete_, mbind, client_bind, bind;
    destruct (request _ _ _ s) as [[r|t] s2]; reflexivity.
Qed.

(** A call is served from the cache -- a [get] with a TTL that finds
    truthy data alive under its key, which it returns, leaving everything
    as it is -- or it sends a request. *)
Lemma call_is_served_or_sends transport c s :
  (exists endpoint config ttl entry,
     c = Get endpoint config ttl /\
     truthy ttl = true /\
     live_entry (getCacheKey endpoint (with_method GET config)) s = Some entry /\
     truthy (data entry) = true /\
     run_call transport c s = (Ok (data entry), s)) \/
  fetches (events_of (run_call transport c) s) <> [].
Proof.
  destruct (decide (entry_point c = GET)) as [Hget|Hother].
  - destruct c as [e cfg ttl|e b cfg|e b cfg|e b cfg|e cfg]; try discriminate.
    destruct (truthy ttl
                && truthy (data <$> live_entry (getCacheKey e (with_method GET cfg)) s))
      eqn:Hhit.
    + left. apply andb_prop in Hhit as [Httl Hdata].
      destruct (live_entry (getCacheKey e (with_method GET cfg)) s) as [entry|] eqn:Hlive;
        [|discriminate].
      exists e, cfg, ttl, entry. repeat split; try assumption.
      simpl. rewrite get_unfold. cbv zeta. rewrite Httl, Hlive, Hdata. simpl.
      f_equal. revert Hlive. unfold live_entry, evict.
      destruct (cache (self s) !! _) as [e0|]; [|done].
      destruct (now (world s) >? expiresAt e0); done.
    + right. apply get_goes_to_network, Hhit.
  - right. rewrite (events_of_same_world _ _ _ (other_verbs_world transport c s Hother)).
    apply request_fetches_nonempty.
Qed.

(** C10. In every request of every call on a client built by the
    constructor, the header [Content-Type] is what the per-call headers
    say, else what the constructor's default headers say, else
    [application/json]; and every header follows the same precedence. A
    call sends such a request unless it is served from the cache: unless
    it is a [get] with a TTL that finds truthy data alive under its key
    and returns it. *)
Theorem content_type_default transport baseUrl defaultHeaders entries w c :
  Forall
    (fun h =>
       h !! "Content-Type"%string
       = Some
           (match read (p_headers (call_config c))
                  ≫= (fun perCall => perCall !! "Content-Type"%string) with
            | Some v => v
            | None =>
                match defaultHeaders !! "Content-Type"%string with
                | Some v => v
                | None => "application/json"%string
                end
            end) /\
       forall key,
         h !! key
         = sent_header (read (p_headers (call_config c))) defaultHeaders key)
    (outgoing_headers
       (events_of (run_call transport c)
          (mkSys (instance baseUrl defaultHeaders entries) w))) /\
  ((exists endpoint config ttl entry,
      c = Get endpoint config ttl /\
      truthy ttl = true /\
      live_entry (getCacheKey endpoint (with_method GET config))
        (mkSys (instance baseUrl defaultHeaders entries) w) = Some entry /\
      truthy (data entry) = true /\
      run_call transport c (mkSys (instance baseUrl defaultHeaders entries) w)
        = (Ok (data entry), mkSys (instance baseUrl defaultHeaders entries) w)) \/
   outgoing_headers
     (events_of (run_call transport c)
        (mkSys (instance baseUrl defaultHeaders entries) w)) <> []).
Proof.
  split.
  - assert (Hall : Forall
      (fun h => forall key,
         h !! key = sent_header (read (p_headers (call_config c))) defaultHeaders key)
      (outgoing_headers
         (events_of (run_call transport c)
            (mkSys (instance baseUrl defaultHeaders entries) w)))).
    { unfold outgoing_headers. apply Forall_map.
      eapply Forall_impl; [|apply call_requests].
      intros r -> key. simpl. rewrite call_headers.
      unfold sent_header. rewrite !union_lookup.
      destruct (read (p_headers (call_config c))) as [h|]; simpl;
        [|rewrite lookup_empty];
        destruct (decide (key = "Content-Type"%string)) as [->|Hne];
        rewrite ?lookup_singleton_eq, ?lookup_singleton_ne by done;
        repeat match goal with |- context [?m !! ?k] => destruct (m !! k) end;
        reflexivity. }
    eapply Forall_impl; [|exact Hall].
    intros h Hh. split; [|exact Hh].
    rewrite Hh. unfold sent_header.
    destruct (read (p_headers (call_config c)) ≫= _); [reflexivity|].
    destruct (defaultHeaders !! "Content-Type"%string); reflexivity.
  - destruct (call_is_served_or_sends transport c
                (mkSys (instance baseUrl defaultHeaders entries) w)) as [H|H];
      [left; exact H|right].
    unfold outgoing_headers.
    destruct (fetches _); [contradiction|discriminate].
Qed.

(** ** The cache *)

Lemma evict_cache_lookup key s k e :
  cache (self (evict key s)) !! k = Some e -> cache (self s) !! k = Some e.
Proof.
  unfold evict. destruct (cache (self s) !! key) as [entry|]; [|done].
  destruct (now (world s) >? expiresAt entry); [|done].
  simpl. intros H. apply lookup_delete_Some in H. tauto.
Qed.

Lemma truthy_ttl (ttl : option Z) :
  truthy ttl = true -> exists n, ttl = Some n /\ n <> 0.
Proof.
  destruct ttl as [n|]; [|discriminate].
  unfold truthy, truthy_option, truthy, truthy_number.
  intros H. exists n. split; [reflexivity|]. destruct (n =? 0) eqn:E; [discriminate|lia].
Qed.

(** One call and the cache: an entry found afterwards was there before,
    unchanged, or this call is a [get] that stored it. *)
Lemma call_cache_step transport c s key e :
  cache (self (snd (run_call transport c s))) !! key = Some e ->
  cache (self s) !! key = Some e \/
  stored_by [(c, fst (run_call transport c s))] key e.
Proof.
  destruct c as [endpoint config ttl|endpoint b config|endpoint b config
                |endpoint b config|endpoint config]; simpl.
  - rewrite get_unfold. cbv zeta.
    set (k := getCacheKey endpoint (with_method GET config)).
    destruct (truthy ttl) eqn:Httl.
    + destruct (truthy (data <$> live_entry k s)); simpl.
      * intros H. left. eapply evict_cache_lookup, H.
      * pose proof (request_self transport endpoint (with_method GET config) (evict k s))
          as Hself.
        destruct (request _ _ _ (evict k s)) as [[r|t] s2]; simpl in *.
        -- destruct (truthy_ttl ttl Httl) as (n & -> & Hn). simpl.
           rewrite Hself. intros H.
           destruct (decide (k = key)) as [<-|Hne].
           ++ rewrite lookup_insert_eq in H. injection H as <-.
              right. exists endpoint, config, n. simpl. repeat split; auto.
           ++ rewrite lookup_insert_ne in H by done.
              left. eapply evict_cache_lookup, H.
        -- rewrite Hself. intros H. left. eapply evict_cache_lookup, H.
    + pose proof (request_self transport endpoint (with_method GET config) s) as Hself.
      destruct (request _ _ _ s) as [[r|t] s2]; simpl in *; rewrite Hself; auto.
  - unfold post, mbind, client_bind, bind.
    pose proof (request_self transport endpoint (with_method_body POST b config) s) as Hself.
    destruct (request _ _ _ s) as [[r|t] s2]; simpl in *; rewrite Hself; auto.
  - unfold put, mbind, client_bind, bind.
    pose proof (request_self transport endpoint (with_method_body PUT b config) s) as Hself.
    destruct (request _ _ _ s) as [[r|t] s2]; simpl in *; rewrite Hself; auto.
  - unfold patch, mbind, client_bind, bind.
    pose proof (request_self transport endpoint (with_method_body PATCH b config) s) as Hself.
    destruct (request _ _ _ s) as [[r|t] s2]; simpl in *; rewrite Hself; auto.
  - unfold delete_, mbind, client_bind, bind.
    pose proof (request_self transport endpoint (with_method DELETE config) s) as Hself.
    destruct (request _ _ _ s) as [[r|t] s2]; simpl in *; rewrite Hself; auto.
Qed.

Lemma stored_by_mono log log' key e :
  stored_by log key e -> stored_by (log ++ log') key e.
Proof.
  intros (endpoint & config & ttl & Hin & H). exists endpoint, config, ttl.
  split; [|exact H]. apply in_or_app. left. exact Hin.
Qed.

Lemma stored_by_last log c r key e :
  stored_by [(c, r)] key e -> stored_by (log ++ [(c, r)]) key e.
Proof.
  intros (endpoint & config & ttl & Hin & H). exists endpoint, config, ttl.
  split; [|exact H]. apply in_or_app. right. exact Hin.
Qed.

Lemma reachable_cache_stored transport s log :
  reachable transport s log ->
  forall key e, cache (self s) !! key = Some e -> stored_by log key e.
Proof.
  induction 1 as [baseUrl dh w|s log c Hreach IH|s log Hreach IH|s log w Hreach IH];
    intros key e Hlook; simpl in Hlook.
  - rewrite lookup_empty in Hlook. discriminate.
  - destruct (call_cache_step transport c s key e Hlook) as [Hold|Hnew].
    + apply stored_by_mono, IH, Hold.
    + apply stored_by_last, Hnew.
  - rewrite lookup_empty in Hlook. discriminate.
  - apply IH, Hlook.
Qed.

(** The verbs other than [get] leave the cache as it is. *)
Lemma other_verbs_keep_cache transport c s :
  entry_point c <> GET ->
  self (snd (run_call transport c s)) = self s.
Proof.
  destruct c as [endpoint config ttl|endpoint b config|endpoint b config
                |endpoint b config|endpoint config]; simpl; intros Hne;
    [contradiction| | | |];
    unfold post, put, patch, delete_, mbind, client_bind, bind;
    match goal with |- context [request ?t ?e ?c ?s] =>
      pose proof (request_self t e c s) as Hself;
      destruct (request t e c s) as [[r|th] s2] end; simpl in *; exact Hself.
Qed.

(** The verbs other than [get] behave the same whatever the cache holds. *)
Lemma other_verbs_ignore_cache transport c s entries :
  entry_point c <> GET ->
  fst (run_call transport c (mkSys (with_cache (self s) entries) (world s)))
    = fst (run_call transport c s) /\
  world (snd (run_call transport c (mkSys (with_cache (self s) entries) (world s))))
    = world (snd (run_call transport c s)).
Proof.
  destruct c as [endpoint config ttl|endpoint b config|endpoint b config
                |endpoint b config|endpoint config]; simpl; intros Hne;
    [contradiction| | | |];
    unfold post, put, patch, delete_, mbind, client_bind, bind;
    rewrite request_frame;
    match goal with |- context [request ?t ?e ?c ?s] =>
      destruct (request t e c s) as [[r|th] s2] end; simpl; done.
Qed.

(** A call that throws stores nothing. *)
Lemma failed_call_stores_nothing transport c s t key e :
  fst (run_call transport c s) = Throw t ->
  cache (self (snd (run_call transport c s))) !! key = Some e ->
  cache (self s) !! key = Some e.
Proof.
  intros Hthrow Hlook.
  destruct (call_cache_step transport c s key e Hlook) as [Hold|Hnew]; [exact Hold|].
  destruct Hnew as (endpoint & config & ttl & Hin & _).
  destruct Hin as [Hin|[]]. rewrite Hthrow in Hin. discriminate.
Qed.

(** C8, as amended. In every state a client can reach from its
    construction, every cache entry was stored by a call of [get] that
    returned the entry's data and whose caller supplied a TTL that is not
    zero (the code tests [if (cacheTtl)], which a negative TTL passes too).
    The other four verbs leave the cache as it is and behave the same
    whatever it holds. A call that throws leaves no entry that was not
    there, unchanged, before. *)
Theorem cache_entries_come_from_get transport :
  (forall s log,
     reachable transport s log ->
     forall key entry,
       cache (self s) !! key = Some entry -> stored_by log key entry) /\
  (forall c s,
     entry_point c <> GET ->
     cache (self (snd (run_call transport c s))) = cache (self s) /\
     forall entries,
       fst (run_call transport c (mkSys (with_cache (self s) entries) (world s)))
         = fst (run_call transport c s) /\
       world (snd (run_call transport c
                     (mkSys (with_cache (self s) entries) (world s))))
         = world (snd (run_call transport c s))) /\
  (forall c s t,
     fst (run_call transport c s) = Throw t ->
     forall key entry,
       cache (self (snd (run_call transport c s))) !! key = Some entry ->
       cache (self s) !! key = Some entry).
Proof.
  split; [|split].
  - apply reachable_cache_stored.
  - intros c s Hne. split.
    + rewrite other_verbs_keep_cache by exact Hne. reflexivity.
    + intros entries. apply other_verbs_ignore_cache, Hne.
  - intros c s t Hthrow key entry. apply failed_call_stores_nothing with t, Hthrow.
Qed.

(** C8, counterexample to the claim as stated: a successful [get] with a
    TTL of -1 stores an entry, which expires before its time stamp. (And
    an entry need not come from a GET request: [get] called with
    [{ method: "POST" }] and a TTL sends a POST and stores its result.) *)
Lemma negative_ttl_is_stored :
  let s := fresh "https://api.example.com" in
  let server := answers (JStr "pong") in
  let posting := mkPartialConfig (Present POST) Absent Absent Absent Absent Absent in
  cache (self (snd (run_call server (Get "/ping" empty_config (Some (-1))) s)))
    !! "GET:/ping:{}"%string
  = Some {| data := JStr "pong"; timestamp := 20; expiresAt := 19 |} /\
  outgoing_methods (events_of (run_call server (Get "/ping" posting (Some 60000))) s)
  = [Some POST] /\
  cache (self (snd (run_call server (Get "/ping" posting (Some 60000)) s)))
    !! "POST:/ping:{}"%string
  = Some {| data := JStr "pong"; timestamp := 20; expiresAt := 60020 |}.
Proof. vm_compute. done. Qed.

Lemma evict_live key s entry : live_entry key s = Some entry -> evict key s = s.
Proof.
  unfold live_entry, evict. destruct (cache (self s) !! key) as [e|]; [|done].
  destruct (now (world s) >? expiresAt e); done.
Qed.

(** A live entry whose data is truthy is served without any event. *)
Lemma cache_hit_served transport endpoint config cacheTtl s entry :
  truthy cacheTtl = true ->
  live_entry (getCacheKey endpoint (with_method GET config)) s = Some entry ->
  truthy (data entry) = true ->
  get transport endpoint config cacheTtl s = (Ok (data entry), s).
Proof.
  intros Httl Hlive Hdata. rewrite get_unfold. cbv zeta.
  rewrite Httl, Hlive. simpl. unfold truthy at 1, truthy_option. rewrite Hdata.
  rewrite (evict_live _ _ _ Hlive). reflexivity.
Qed.

(** A live entry whose data is falsy is taken for a miss: the call goes to
    the network like one that found nothing. *)
Lemma falsy_hit_is_a_miss transport endpoint config cacheTtl s entry :
  truthy cacheTtl = true ->
  live_entry (getCacheKey endpoint (with_method GET config)) s = Some entry ->
  truthy (data entry) = false ->
  events_of (get transport endpoint config cacheTtl) s
  = events_of (request transport endpoint (with_method GET config)) s /\
  fetches (events_of (get transport endpoint config cacheTtl) s) <> [].
Proof.
  intros Httl Hlive Hdata.
  assert (E : events_of (get transport endpoint config cacheTtl) s
              = events_of (request transport endpoint (with_method GET config)) s).
  { apply events_of_same_world. rewrite get_unfold. cbv zeta.
    rewrite Httl, Hlive. simpl. unfold truthy at 1, truthy_option. rewrite Hdata.
    rewrite (evict_live _ _ _ Hlive).
    destruct (request _ _ _ s) as [[r|t] s2]; reflexivity. }
  split; [exact E|]. rewrite E.
  destruct (request_projections transport endpoint (with_method GET config) s)
    as (k & _ & -> & _).
  discriminate.
Qed.

(** C2, the code at the failing input. The server answers [GET /count] with
    the JSON number 0. The first call, with a TTL of 60000 ms, stores the
    0; at time 20 the entry is alive until 60020. The second, identical
    call finds it, and [if (cached)] takes the 0 for a miss: the transport
    is invoked once more. *)
Theorem falsy_cached_data_is_fetched_again :
  let transport := answers (JNum 0) in
  let first := get transport "/count" empty_config (Some 60000)
                 (fresh "https://api.example.com") in
  let second := get transport "/count" empty_config (Some 60000) (snd first) in
  fst first = Ok (JNum 0) /\
  live_entry "GET:/count:{}" (snd first)
    = Some {| data := JNum 0; timestamp := 20; expiresAt := 60020 |} /\
  now (world (snd first)) = 20 /\
  fst second = Ok (JNum 0) /\
  length (fetches (events_of (get transport "/count" empty_config (Some 60000))
                     (snd first))) = 1%nat.
Proof. vm_compute. done. Qed.

(** ** The cache key

    Serialization is injective, and the colons that separate method,
    endpoint and body in a key cannot be confused with colons inside the
    endpoint or the body. *)

Local Open Scope string_scope.
#[local] Arguments String.append !s1 s2 : simpl nomatch.

Lemma append_assoc (a b c : string) : (a ++ b) ++ c = a ++ (b ++ c).
Proof. induction a as [|x a IH]; simpl; [reflexivity|]. rewrite IH. reflexivity. Qed.

Lemma append_nil_r (a : string) : a ++ EmptyString = a.
Proof. induction a as [|x a IH]; simpl; [reflexivity|]. rewrite IH. reflexivity. Qed.

(** Two ways of cutting one string: one cut is further right by [x]. *)
Lemma append_eq_append (a b c d : string) :
  a ++ b = c ++ d ->
  exists x, (a = c ++ x /\ d = x ++ b) \/ (c = a ++ x /\ b = x ++ d).
Proof.
  revert c. induction a as [|y a IH]; intros c H; simpl in H.
  - exists c. right. split; [reflexivity|exact H].
  - destruct c as [|z c]; simpl in H.
    + exists (String y a). left. split; [reflexivity|]. symmetry. exact H.
    + injection H as -> H. destruct (IH c H) as [x [[-> ->]|[-> ->]]];
        exists x; [left|right]; split; reflexivity.
Qed.

Lemma run_split p a b c d :
  all_chars p a = true -> all_chars p c = true ->
  stops p b = true -> stops p d = true ->
  a ++ b = c ++ d -> a = c /\ b = d.
Proof.
  revert c. induction a as [|x a IH]; intros c Ha Hc Hb Hd H; simpl in *.
  - destruct c as [|z c]; simpl in *; [done|].
    subst b. simpl in Hb. apply andb_prop in Hc as [Hz _]. rewrite Hz in Hb. done.
  - apply andb_prop in Ha as [Hx Ha].
    destruct c as [|z c]; simpl in *.
    + subst d. simpl in Hd. rewrite Hx in Hd. done.
    + apply andb_prop in Hc as [Hz Hc]. injection H as -> H.
      destruct (IH c Ha Hc Hb Hd H) as [-> ->]. done.
Qed.

Lemma numeric_string_of_uint u : all_chars numeric (NilEmpty.string_of_uint u) = true.
Proof. induction u; simpl; auto. Qed.

Lemma numeric_number_to_string n : all_chars numeric (number_to_string n) = true.
Proof.
  unfold number_to_string. destruct (Z.to_int n); simpl; apply numeric_string_of_uint.
Qed.

Lemma number_to_string_inj n m : number_to_string n = number_to_string m -> n = m.
Proof.
  unfold number_to_string. intros H.
  assert (Hi : Z.to_int n = Z.to_int m).
  { pose proof (NilEmpty.isi (Z.to_int n)) as H1.
    pose proof (NilEmpty.isi (Z.to_int m)) as H2.
    rewrite H in H1. congruence. }
  rewrite <- (of_to n), <- (of_to m), Hi. reflexivity.
Qed.

Lemma unescape_head_escape_char c r :
  unescape_head (escape_char c ++ r) = Some (c, r).
Proof.
  destruct c as [[] [] [] [] [] [] [] []]; reflexivity.
Qed.

Lemma unescape_head_quote r : unescape_head (String quote_char r) = None.
Proof. reflexivity. Qed.

Lemma escape_unique s1 s2 r1 r2 :
  escape s1 ++ String quote_char r1 = escape s2 ++ String quote_char r2 ->
  s1 = s2 /\ r1 = r2.
Proof.
  revert s2. induction s1 as [|c1 s1 IH]; intros [|c2 s2] H; simpl in H.
  - injection H as ->. done.
  - apply (f_equal unescape_head) in H.
    rewrite append_assoc, unescape_head_escape_char in H. discriminate.
  - apply (f_equal unescape_head) in H.
    rewrite append_assoc, unescape_head_escape_char in H. discriminate.
  - apply (f_equal unescape_head) in H.
    rewrite !append_assoc, !unescape_head_escape_char in H.
    injection H as -> H. destruct (IH s2 H) as [-> ->]. done.
Qed.

Lemma quote_unique s1 s2 r1 r2 :
  quote s1 ++ r1 = quote s2 ++ r2 -> s1 = s2 /\ r1 = r2.
Proof.
  unfold quote. simpl. rewrite !append_assoc. simpl.
  intros H. injection H as H. apply escape_unique, H.
Qed.

Lemma number_to_string_head n :
  exists c rest, number_to_string n = String c rest /\ numeric c = true.
Proof.
  pose proof (numeric_number_to_string n) as Hall.
  assert (Hne : number_to_string n <> EmptyString).
  { unfold number_to_string. destruct n as [|p|p]; simpl; [discriminate| |discriminate].
    pose proof (DecimalPos.Unsigned.to_uint_nonnil p) as Hp.
    destruct (Pos.to_uint p); simpl; (contradiction || discriminate). }
  destruct (number_to_string n) as [|c rest]; [contradiction|].
  simpl in Hall. apply andb_prop in Hall as [Hc _]. eauto.
Qed.

Lemma follows_stops r : follows r = true -> stops numeric r = true.
Proof.
  destruct r as [|c r]; simpl; [done|].
  intros H. apply orb_prop in H as [H|H]; [apply orb_prop in H as [H|H]|];
    apply Ascii.eqb_eq in H; subst c; reflexivity.
Qed.

Ltac number_head H n :=
  let c := fresh "c" in let rest := fresh "rest" in
  let E := fresh "E" in let Hc := fresh "Hc" in
  destruct (number_to_string_head n) as (c & rest & E & Hc);
  simpl in H; rewrite E in H; simpl in H;
  injection H as H _; subst c; discriminate Hc.

(** The text of a non-empty list of elements, up to the closing bracket. *)
Lemma elements_text x xs r :
  String.concat "," (map stringify (x :: xs)) ++ String "]" r
  = stringify x ++
    match xs with
    | [] => String "]" r
    | _ :: _ => String "," (String.concat "," (map stringify xs) ++ String "]" r)
    end.
Proof.
  destruct xs as [|x' xs]; [reflexivity|].
  change (String.concat "," (map stringify (x :: x' :: xs)))
    with (stringify x ++ "," ++ String.concat "," (map stringify (x' :: xs))).
  rewrite !append_assoc. reflexivity.
Qed.

Lemma members_text k x xs r :
  String.concat "," (map member_text ((k, x) :: xs)) ++ String "}" r
  = quote k ++
    String ":"
      (stringify x ++
       match xs with
       | [] => String "}" r
       | _ :: _ =>
           String "," (String.concat "," (map member_text xs) ++ String "}" r)
       end).
Proof.
  destruct xs as [|x' xs].
  - change (String.concat "," (map member_text [(k, x)]))
      with (quote k ++ ":" ++ stringify x).
    rewrite !append_assoc. reflexivity.
  - change (String.concat "," (map member_text ((k, x) :: x' :: xs)))
      with ((quote k ++ ":" ++ stringify x) ++ ","
              ++ String.concat "," (map member_text (x' :: xs))).
    rewrite !append_assoc. reflexivity.
Qed.

Lemma stringify_not_closing v r c r' :
  c = "]"%char \/ c = "}"%char -> stringify v ++ r <> String c r'.
Proof.
  intros Hc H.
  destruct v; simpl in H; try (destruct b); try discriminate;
    try (injection H as <- _; destruct Hc; discriminate).
  destruct (number_to_string_head n) as (c' & rest & E & Hnum).
  rewrite E in H. simpl in H. injection H as -> _.
  destruct Hc; subst c; discriminate.
Qed.

Lemma unique_reading_elements elements :
  Forall unique_reading elements ->
  forall elements' r r',
    String.concat "," (map stringify elements) ++ String "]" r
    = String.concat "," (map stringify elements') ++ String "]" r' ->
    elements = elements' /\ r = r'.
Proof.
  induction 1 as [|x xs Hx Hxs IH]; intros ys r r' H.
  - destruct ys as [|y ys].
    + simpl in H. injection H as ->. done.
    + rewrite elements_text in H. symmetry in H.
      apply stringify_not_closing in H; [done|auto].
  - destruct ys as [|y ys].
    + rewrite elements_text in H.
      apply stringify_not_closing in H; [done|auto].
    + rewrite !elements_text in H.
      apply Hx in H as [-> E]; [| destruct xs; reflexivity | destruct ys; reflexivity].
      destruct xs as [|x' xs], ys as [|y' ys]; try discriminate E; injection E as E.
      * subst. done.
      * destruct (IH (y' :: ys) r r' E) as [-> ->]. done.
Qed.

Lemma unique_reading_members members :
  Forall (fun m => unique_reading (snd m)) members ->
  forall members' r r',
    String.concat "," (map member_text members) ++ String "}" r
    = String.concat "," (map member_text members') ++ String "}" r' ->
    members = members' /\ r = r'.
Proof.
  induction 1 as [|[k x] xs Hx Hxs IH]; intros ys r r' H.
  - destruct ys as [|[k' y] ys].
    + simpl in H. injection H as ->. done.
    + rewrite members_text in H. discriminate.
  - destruct ys as [|[k' y] ys].
    + rewrite members_text in H. discriminate.
    + rewrite !members_text in H. simpl in Hx.
      apply quote_unique in H as [-> H]. injection H as H.
      apply Hx in H as [-> E]; [| destruct xs; reflexivity | destruct ys; reflexivity].
      destruct xs as [|x' xs], ys as [|y' ys]; try discriminate E; injection E as E.
      * subst. done.
      * destruct (IH (y' :: ys) r r' E) as [-> ->]. done.
Qed.

Theorem stringify_unique_reading v : unique_reading v.
Proof.
  induction v as [|b|n|s|elements IH|members IH] using json_ind;
    intros v' r r' Hr Hr' H.
  - destruct v'; simpl in H; try discriminate;
      try (destruct b; discriminate); try (symmetry in H; number_head H n).
    injection H as ->. done.
  - destruct v'; try (destruct b; simpl in H; discriminate);
      try (symmetry in H; destruct b; number_head H n).
    destruct b, b0; simpl in H; try discriminate; injection H as ->; done.
  - destruct v'; try number_head H n.
    + destruct b; number_head H n.
    + simpl in H.
      apply (run_split numeric) in H as [E ->];
        auto using numeric_number_to_string, follows_stops.
      apply number_to_string_inj in E. subst. done.
  - destruct v'; simpl in H; try discriminate;
      try (destruct b; discriminate); try (symmetry in H; number_head H n).
    change (quote s ++ r = quote s0 ++ r') in H.
    apply quote_unique in H as [-> ->]. done.
  - destruct v'; simpl in H; try discriminate;
      try (destruct b; discriminate); try (symmetry in H; number_head H n).
    injection H as H. rewrite !append_assoc in H. simpl in H.
    apply (unique_reading_elements _ IH) in H as [-> ->]. done.
  - destruct v'; simpl in H; try discriminate;
      try (destruct b; discriminate); try (symmetry in H; number_head H n).
    injection H as H. rewrite !append_assoc in H.
    change (String.concat "," (map member_text members) ++ String "}" r
            = String.concat "," (map member_text members0) ++ String "}" r') in H.
    apply (unique_reading_members _ IH) in H as [-> ->]. done.
Qed.

Corollary stringify_inj v v' : stringify v = stringify v' -> v = v'.
Proof.
  intros H.
  destruct (stringify_unique_reading v v' EmptyString EmptyString eq_refl eq_refl)
    as [E _]; [|exact E].
  rewrite !append_nil_r. exact H.
Qed.

Lemma scan_app st d a b :
  scan st d (a ++ b)
  = match scan st d a with
    | Some (st', d') => scan st' d' b
    | None => None
    end.
Proof.
  revert st d. induction a as [|c a IH]; intros st d; [reflexivity|].
  simpl. destruct st; rewrite ?IH;
    repeat match goal with |- context [if ?x then _ else _] => destruct x end;
    reflexivity.
Qed.

Lemma scan_plain_char c d r :
  plain c = true -> scan Outside d (String c r) = scan Outside d r.
Proof.
  unfold plain. intros H. apply negb_true_iff in H.
  repeat (apply orb_false_elim in H as [H ?]).
  simpl.
  repeat match goal with E : Ascii.eqb _ _ = false |- _ => rewrite E; clear E end.
  reflexivity.
Qed.

Lemma scan_plain s d r :
  all_chars plain s = true -> scan Outside d (s ++ r) = scan Outside d r.
Proof.
  induction s as [|c s IH]; intros H; [reflexivity|].
  simpl in H. apply andb_prop in H as [Hc Hs].
  change (String c s ++ r) with (String c (s ++ r)).
  rewrite scan_plain_char by exact Hc. apply IH, Hs.
Qed.

Lemma numeric_plain c : numeric c = true -> plain c = true.
Proof. destruct c as [[] [] [] [] [] [] [] []]; (reflexivity || discriminate). Qed.

Lemma all_chars_impl (p q : ascii -> bool) s :
  (forall c, p c = true -> q c = true) ->
  all_chars p s = true -> all_chars q s = true.
Proof.
  intros Hpq. induction s as [|c s IH]; simpl; [done|].
  intros H. apply andb_prop in H as [Hc Hs]. rewrite (Hpq c Hc), (IH Hs). done.
Qed.

Lemma scan_escape_char c d r :
  scan Inside d (escape_char c ++ r) = scan Inside d r.
Proof. destruct c as [[] [] [] [] [] [] [] []]; reflexivity. Qed.

Lemma scan_escape s d r : scan Inside d (escape s ++ r) = scan Inside d r.
Proof.
  induction s as [|c s IH]; [reflexivity|].
  simpl. rewrite append_assoc, scan_escape_char. exact IH.
Qed.

Lemma scan_quote s d r : scan Outside d (quote s ++ r) = scan Outside d r.
Proof.
  unfold quote. change (scan Outside d (String quote_char ?x ++ r))
    with (scan Inside d (x ++ r)).
  rewrite append_assoc, scan_escape. reflexivity.
Qed.

Lemma well_scanned_elements elements :
  Forall well_scanned elements ->
  forall d r, 0 <= d ->
    scan Outside d (String.concat "," (map stringify elements) ++ String "]" r)
    = scan Outside (d - 1) r.
Proof.
  induction 1 as [|x xs Hx Hxs IH]; intros d r Hd; [reflexivity|].
  rewrite elements_text, Hx by exact Hd.
  destruct xs as [|x' xs]; [reflexivity|].
  rewrite <- (IH d r Hd). reflexivity.
Qed.

Lemma well_scanned_members members :
  Forall (fun m => well_scanned (snd m)) members ->
  forall d r, 0 < d ->
    scan Outside d (String.concat "," (map member_text members) ++ String "}" r)
    = scan Outside (d - 1) r.
Proof.
  induction 1 as [|[k x] xs Hx Hxs IH]; intros d r Hd; [reflexivity|].
  rewrite members_text, scan_quote. simpl in Hx.
  change (scan Outside d (String ":" ?x))
    with (if (0 <? d)%Z then scan Outside d x else None).
  destruct (Z.ltb_spec 0 d) as [_|?]; [|lia].
  rewrite Hx by lia.
  destruct xs as [|x' xs]; [reflexivity|].
  rewrite <- (IH d r Hd). reflexivity.
Qed.

Lemma stringify_well_scanned v : well_scanned v.
Proof.
  induction v as [|b|n|s|elements IH|members IH] using json_ind; intros d r Hd.
  - apply (scan_plain "null"). reflexivity.
  - destruct b; [apply (scan_plain "true")|apply (scan_plain "false")]; reflexivity.
  - apply scan_plain. eapply all_chars_impl; [apply numeric_plain|].
    apply numeric_number_to_string.
  - apply scan_quote.
  - change (stringify (JArr elements))
      with ("[" ++ String.concat "," (map stringify elements) ++ "]").
    rewrite !append_assoc.
    change (scan Outside d ("[" ++ ?x)) with (scan Outside (d + 1) x).
    change ("]" ++ r) with (String "]" r).
    rewrite (well_scanned_elements _ IH) by lia. f_equal. lia.
  - change (stringify (JObj members))
      with ("{" ++ String.concat "," (map member_text members) ++ "}").
    rewrite !append_assoc.
    change (scan Outside d ("{" ++ ?x)) with (scan Outside (d + 1) x).
    change ("}" ++ r) with (String "}" r).
    rewrite (well_scanned_members _ IH) by lia. f_equal. lia.
Qed.

Lemma scan_stringify v : scan Outside 0 (stringify v) = Some (Outside, 0).
Proof.
  rewrite <- (append_nil_r (stringify v)).
  rewrite stringify_well_scanned by lia. reflexivity.
Qed.

(** Reading at a greater depth succeeds as well, and ends that much deeper. *)
Lemma scan_shift s : forall st d st' e k,
  0 <= k -> scan st d s = Some (st', e) -> scan st (d + k) s = Some (st', e + k).
Proof.
  induction s as [|c s IH]; intros st d st' e k Hk H; simpl in *.
  - injection H as -> ->. reflexivity.
  - destruct st; auto;
      repeat match goal with
             | |- context [Ascii.eqb ?x ?y] =>
                 destruct (Ascii.eqb x y); simpl in *
             end; auto; try discriminate;
      try (replace (d + k + 1) with (d + 1 + k) by lia; auto; fail);
      try (replace (d + k - 1) with (d - 1 + k) by lia; auto; fail).
    destruct (Z.ltb_spec 0 d); [|discriminate].
    destruct (Z.ltb_spec 0 (d + k)); [|lia]. auto.
Qed.

Lemma scan_opposite s : forall a b d d' st st' e e',
  opposite a b ->
  scan a d s = Some (st, e) -> scan b d' s = Some (st', e') ->
  opposite st st'.
Proof.
  induction s as [|c s IH]; intros a b d d' st st' e e' Hab Ha Hb; simpl in *.
  - injection Ha as <- _. injection Hb as <- _. exact Hab.
  - destruct Hab as [[-> ->]|[-> ->]];
      destruct (Ascii.eqb c quote_char);
      try (eapply IH; [|eassumption|eassumption]; unfold opposite; tauto);
      destruct (Ascii.eqb c backslash); try discriminate;
      repeat match goal with
             | H : context [if ?x then _ else _] |- _ => destruct x; try discriminate
             end;
      (eapply IH; [|eassumption|eassumption]; unfold opposite; tauto).
Qed.

(** No serialized value is what follows a colon inside another one. *)
Lemma no_value_after_colon x j1 j2 :
  scan Outside 0 j1 = Some (Outside, 0) ->
  scan Outside 0 j2 = Some (Outside, 0) ->
  j1 <> x ++ String ":" j2.
Proof.
  intros H1 H2 ->. rewrite scan_app in H1.
  destruct (scan Outside 0 x) as [[st d]|]; [|discriminate].
  destruct st.
  - change (scan Outside d (String ":" j2))
      with (if (0 <? d)%Z then scan Outside d j2 else None) in H1.
    destruct (Z.ltb_spec 0 d); [|discriminate].
    apply (scan_shift _ _ _ _ _ d) in H2; [|lia].
    rewrite !Z.add_0_l in H2. rewrite H2 in H1. injection H1 as H1. lia.
  - change (scan Inside d (String ":" j2)) with (scan Inside d j2) in H1.
    destruct (scan_opposite _ _ _ _ _ _ _ _ _ (or_introl (conj eq_refl eq_refl)) H1 H2)
      as [[? ?]|[? ?]]; discriminate.
  - change (scan Escaped d (String ":" j2)) with (scan Inside d j2) in H1.
    destruct (scan_opposite _ _ _ _ _ _ _ _ _ (or_introl (conj eq_refl eq_refl)) H1 H2)
      as [[? ?]|[? ?]]; discriminate.
Qed.

Lemma endpoint_and_body_unique e1 e2 v1 v2 :
  e1 ++ ":" ++ stringify v1 = e2 ++ ":" ++ stringify v2 ->
  e1 = e2 /\ v1 = v2.
Proof.
  intros H.
  destruct (append_eq_append _ _ _ _ H) as [x [[-> Hx]|[-> Hx]]];
    destruct x as [|c x]; simpl in Hx.
  - injection Hx as Hx. rewrite append_nil_r.
    split; [reflexivity|]. symmetry. apply stringify_inj, Hx.
  - exfalso. injection Hx as <- Hx.
    apply (no_value_after_colon x (stringify v2) (stringify v1));
      auto using scan_stringify.
  - injection Hx as Hx. rewrite append_nil_r.
    split; [reflexivity|]. apply stringify_inj, Hx.
  - exfalso. injection Hx as <- Hx.
    apply (no_value_after_colon x (stringify v1) (stringify v2));
      auto using scan_stringify.
Qed.

Lemma method_unique m1 m2 r1 r2 :
  method_to_string m1 ++ ":" ++ r1 = method_to_string m2 ++ ":" ++ r2 ->
  m1 = m2 /\ r1 = r2.
Proof.
  destruct m1 as [[]|], m2 as [[]|]; simpl; intros H;
    try discriminate; injection H as ->; done.
Qed.

(** C4, as amended. For bodies that are JSON values -- [null], booleans,
    numbers, strings, arrays and objects of these, an object being the
    list of its members in their order -- two calls derive the same cache
    key if and only if they have the same method, the same endpoint, and
    the same body once an absent or falsy body ([undefined], [null],
    [false], 0, the empty string) is replaced by the empty object, as
    [config.body || {}] does. *)
Theorem cache_key_identifies endpoint1 config1 endpoint2 config2 :
  getCacheKey endpoint1 config1 = getCacheKey endpoint2 config2 <->
  method config1 = method config2 /\
  endpoint1 = endpoint2 /\
  js_or (body config1) (JObj []) = js_or (body config2) (JObj []).
Proof.
  unfold getCacheKey. split.
  - intros H. apply method_unique in H as [Hm H].
    apply endpoint_and_body_unique in H as [He Hb]. done.
  - intros (-> & -> & ->). reflexivity.
Qed.

(** C4, counterexample to the claim as stated: the bodies 0 and [false]
    differ, and both calls derive the key [GET:/items:{}]. *)
Lemma falsy_bodies_share_a_key :
  let with_body b := mkRequestConfig (Some GET) None (Some b) None None None in
  getCacheKey "/items" (with_body (JNum 0))
    = getCacheKey "/items" (with_body (JBool false)) /\
  body (with_body (JNum 0)) <> body (with_body (JBool false)).
Proof. split; [vm_compute; reflexivity|discriminate]. Qed.

Local Close Scope string_scope.

(** ** The base address *)

Lemma strip_trailing_slash_last (b : string) (c : ascii) :
  Text.strip_trailing_slash (b ++ String c EmptyString)%string
  = if Ascii.eqb c "/" then b else (b ++ String c EmptyString)%string.
Proof.
  induction b as [|x b IH].
  - simpl. destruct (Ascii.eqb c "/"); reflexivity.
  - change (String x b ++ String c EmptyString)%string
      with (String x (b ++ String c EmptyString)%string).
    destruct (b ++ String c EmptyString)%string as [|y r] eqn:E.
    + destruct b; discriminate E.
    + change (Text.strip_trailing_slash (String x (String y r)))
        with (String x (Text.strip_trailing_slash (String y r))).
      rewrite IH. destruct (Ascii.eqb c "/"); reflexivity.
Qed.

(** One call and the world: a call leaves the world as it is (a [get]
    served from the cache), or as the one [request] it makes leaves it. *)
Lemma call_world transport c s :
  world (snd (run_call transport c s)) = world s \/
  world (snd (run_call transport c s))
  = world (snd (request transport (call_endpoint c) (call_request_config c) s)).
Proof.
  destruct c as [endpoint config ttl|endpoint b config|endpoint b config
                |endpoint b config|endpoint config]; simpl.
  - destruct (evict_shape (getCacheKey endpoint (with_method GET config)) s)
      as [entries Hev].
    pose proof (request_world_frame transport endpoint (with_method GET config) s entries)
      as Hw.
    rewrite <- Hev in Hw.
    rewrite get_unfold. cbv zeta.
    destruct (truthy ttl).
    + destruct (truthy (data <$> live_entry _ s)).
      * left. simpl. rewrite Hev. reflexivity.
      * right. rewrite <- Hw.
        destruct (request _ _ _ (evict _ _)) as [[r|t] s2]; reflexivity.
    + right. destruct (request _ _ _ s) as [[r|t] s2]; reflexivity.
  - right. unfold post, mbind, client_bind, bind.
    destruct (request _ _ _ s) as [[r|t] s2]; reflexivity.
  - right. unfold put, mbind, client_bind, bind.
    destruct (request _ _ _ s) as [[r|t] s2]; reflexivity.
  - right. unfold patch, mbind, client_bind, bind.
    destruct (request _ _ _ s) as [[r|t] s2]; reflexivity.
  - right. unfold delete_, mbind, client_bind, bind.
    destruct (request _ _ _ s) as [[r|t] s2]; reflexivity.
Qed.

(** Every request of every call on a client goes to the base address the
    constructor was given, less one slash at its end if it has one, followed
    by the endpoint as it is. *)
Theorem requests_go_to_base_and_endpoint transport base (ending : ascii)
    defaultHeaders entries w c :
  Forall
    (fun url =>
       url = ((if Ascii.eqb ending "/" then base
               else base ++ String ending EmptyString) ++ call_endpoint c)%string)
    (outgoing_urls
       (events_of (run_call transport c)
          (mkSys (instance (base ++ String ending EmptyString) defaultHeaders entries) w))).
Proof.
  unfold outgoing_urls. apply Forall_map.
  eapply Forall_impl; [|apply call_requests].
  intros r ->. simpl. unfold request_url. simpl.
  rewrite strip_trailing_slash_last. reflexivity.
Qed.

(** ** The abort timer *)

Lemma last_clears_after o : list.last (clears_after o) = Some EvClearAbortTimer.
Proof.
  destruct o as [response|t]; simpl; [|reflexivity].
  destruct (respond response); reflexivity.
Qed.

Lemma request_disarms transport endpoint config s :
  abort_timer (world (snd (request transport endpoint config s))) = None.
Proof.
  rewrite request_unfold. cbv zeta.
  destruct (fetchWithRetry _ _ _ _ _ _) as [[response|t] s2]; [|reflexivity].
  destruct (respond response); reflexivity.
Qed.

(** No timer is left behind. A [request] arms one abort timer, its first
    act, and cancels it on every path: when it returns or throws, no timer
    is armed and the cancellation is the last thing it asked of the host. A
    verb call either leaves the world untouched (a [get] served from the
    cache) or ends with no timer armed. *)
Theorem no_timer_left_behind transport endpoint config c s :
  let evs := events_of (request transport endpoint config) s in
  (abort_timer (world (snd (request transport endpoint config s))) = None /\
   list.head evs = Some (EvSetAbortTimer (js_or (timeout config) (defaultTimeout (self s)))) /\
   abort_timers evs = [js_or (timeout config) (defaultTimeout (self s))] /\
   list.last evs = Some EvClearAbortTimer) /\
  (world (snd (run_call transport c s)) = world s \/
   abort_timer (world (snd (run_call transport c s))) = None).
Proof.
  cbv zeta. split.
  - split; [apply request_disarms|].
    destruct (request_run transport endpoint config s)
      as (k & w & _ & _ & Hev & _).
    rewrite Hev. split; [reflexivity|]. split.
    + apply projections_request_events.
    + rewrite app_comm_cons, last_app, last_clears_after. reflexivity.
  - destruct (call_world transport c s) as [H|H]; [left; exact H|right].
    rewrite H. apply request_disarms.
Qed.

(** ** Responses *)

(** When the transport answers an attempt of a call with a response whose
    status is in 200-299 and whose body parses, [request] returns the
    parsed body with the status line and the headers of the response; the
    attempt is the last invocation of the transport and the timer is
    cancelled once. *)
Theorem successful_response_returned transport endpoint config s
    retries' delay' s' response d :
  let url := request_url (self s) endpoint in
  let options := request_options (self s) config in
  attempt_of transport endpoint config s (retries', delay', s') ->
  outcome (transport (world s') url options) = Ok response ->
  r_ok response = true ->
  r_json response = Ok d ->
  fst (request transport endpoint config s)
    = Ok {| res_data := d;
            res_status := r_status response;
            res_statusText := r_statusText response;
            res_headers := parseHeaders (r_headers response) |} /\
  trace (world (snd (request transport endpoint config s)))
    = trace (world s') ++ [EvFetch url options; EvClearAbortTimer].
Proof.
  intros url options Hattempt Hout Hok Hjson.
  rewrite (request_from_attempt _ _ _ _ _ _ _ Hattempt). fold url options.
  rewrite (fetchWithRetry_first_ok _ _ _ _ _ _ _ Hout).
  unfold respond. rewrite Hjson, Hok. simpl.
  rewrite <- !app_assoc. done.
Qed.

Lemma successful_response_returned_witness :
  fst (request (answers (JStr "pong")) "/ping" (retrying 3 100)
         (fresh "https://api.example.com"))
    = Ok {| res_data := JStr "pong"; res_status := 200; res_statusText := "OK";
            res_headers := parseHeaders [] |} /\
  trace (world (snd (request (answers (JStr "pong")) "/ping" (retrying 3 100)
                       (fresh "https://api.example.com"))))
    = trace (world (armed (retrying 3 100) (fresh "https://api.example.com")))
        ++ [EvFetch (request_url (self (fresh "https://api.example.com")) "/ping")
              (request_options (self (fresh "https://api.example.com")) (retrying 3 100));
            EvClearAbortTimer].
Proof.
  apply (successful_response_returned (answers (JStr "pong")) "/ping" (retrying 3 100)
           (fresh "https://api.example.com") 3 100
           (armed (retrying 3 100) (fresh "https://api.example.com"))
           (ok_response (JStr "pong")) (JStr "pong")).
  - apply rtc_refl.
  - reflexivity.
  - reflexivity.
  - reflexivity.
Defined.

(** ** Retries *)

(** Retry until success. When the first [k] attempts of a call throw
    while retries are left and the transport answers the attempt number
    [k + 1], the call ends as that response decides (the parsed body for a
    status in 200-299). The transport is invoked exactly [k + 1] times,
    with the same URL and options, and the wrapper waits [delay * 2 ^ i]
    before the retry number [i + 1], where [delay] is
    [config.retryDelay || 1000]. *)
Theorem retry_until_success transport endpoint config s (k : nat)
    retries' delay' s' response :
  let url := request_url (self s) endpoint in
  let options := request_options (self s) config in
  let delay := js_or (retryDelay config) 1000 in
  let evs := events_of (request transport endpoint config) s in
  nth_attempt transport endpoint config s k (retries', delay', s') ->
  outcome (transport (world s') url options) = Ok response ->
  fst (request transport endpoint config s) = settle (Ok response) /\
  fetches evs = replicate (S k) (url, options) /\
  waits evs = map (fun i => delay * 2 ^ Z.of_nat i) (seq 0 k).
Proof.
  intros url options delay evs Hnth Hout.
  unfold nth_attempt in Hnth. fold url options delay in Hnth.
  destruct (nsteps_retry _ _ _ _ _ _ _ _ Hnth) as (_ & Hrun & _ & _ & Hev).
  simpl in Hrun, Hev.
  rewrite (fetchWithRetry_first_ok _ _ _ _ _ _ _ Hout) in Hrun.
  assert (Htr : trace (world (snd (fetchWithRetry transport url options
                                     (js_or (retries config) 0) delay (armed config s))))
                = trace (world (armed config s)) ++ retry_events url options delay k).
  { rewrite Hrun. simpl. specialize (Hev 0%nat). simpl in Hev.
    rewrite Nat.add_0_r in Hev. exact Hev. }
  destruct (request_events_of_run transport endpoint config s k Htr) as [Hevs Hfst].
  fold url options delay evs in Hevs, Hfst.
  rewrite Hrun in Hevs, Hfst. simpl fst in Hevs, Hfst.
  split; [exact Hfst|]. rewrite Hevs.
  destruct (projections_request_events
              (js_or (timeout config) (defaultTimeout (self s))) url options delay k
              (Ok response)) as (-> & -> & _).
  done.
Qed.

(** Witness: three retries with a base delay of 100 ms, through a [fetch]
    that honours the abort signal, against a server that fails twice and
    then answers. *)
Lemma retry_until_success_witness :
  let s := fresh "https://api.example.com" in
  let transport := signal_aware (recovers_after 2 (JStr "pong")) in
  let url := request_url (self s) "/ping" in
  let options := request_options (self s) (retrying 3 100) in
  let evs := events_of (request transport "/ping" (retrying 3 100)) s in
  fst (request transport "/ping" (retrying 3 100) s)
    = settle (Ok (ok_response (JStr "pong"))) /\
  fetches evs = replicate 3 (url, options) /\
  waits evs = map (fun i => js_or (Some 100) 1000 * 2 ^ Z.of_nat i) (seq 0 2).
Proof.
  eapply (retry_until_success (signal_aware (recovers_after 2 (JStr "pong"))) "/ping"
            (retrying 3 100) (fresh "https://api.example.com") 2).
  - eapply nsteps_l;
      [apply (retry_step_intro _ _ _ 3 100 _ (ThrownError "TypeError" "fetch failed"));
         [reflexivity|lia]|].
    eapply nsteps_l;
      [apply (retry_step_intro _ _ _ 2 200 _ (ThrownError "TypeError" "fetch failed"));
         [reflexivity|lia]|].
    apply nsteps_O.
  - reflexivity.
Defined.

(** A call invokes the transport at most once more than the retries it is
    configured with (absent, zero or negative: at most once), and the
    wrapper waits exactly once between two consecutive invocations. *)
Theorem attempts_are_bounded transport c s :
  let evs := events_of (run_call transport c) s in
  Z.of_nat (length (fetches evs))
    <= 1 + Z.max 0 (js_or (retries (call_request_config c)) 0) /\
  length (waits evs) = pred (length (fetches evs)).
Proof.
  cbv zeta.
  destruct (call_events transport c s) as [-> | ->]; [simpl; split; [lia|done]|].
  destruct (request_projections transport (call_endpoint c) (call_request_config c) s)
    as (k & Hk & -> & -> & _).
  rewrite length_replicate, length_map, length_seq. simpl. split; [lia|done].
Qed.

(** ** What a call returns and what it throws *)





(** ** Request bodies *)

(** A call whose requests have the method GET sends no body, whatever
    [body] its configuration holds. *)
Theorem get_requests_carry_no_body transport c s :
  sent_method c = Some GET ->
  Forall (fun b => b = None)
    (outgoing_bodies (events_of (run_call transport c) s)).
Proof.
  intros Hget. unfold outgoing_bodies. apply Forall_map.
  eapply Forall_impl; [|apply call_requests].
  intros r ->. simpl. rewrite call_method, Hget.
  rewrite bool_decide_eq_true_2 by reflexivity.
  rewrite andb_false_r. reflexivity.
Qed.

Lemma get_requests_carry_no_body_witness :
  Forall (fun b => b = None)
    (outgoing_bodies
       (events_of
          (run_call (answers (JArr []))
             (Get "/search"
                (mkPartialConfig Absent Absent (Present (JObj [("q"%string, JStr "x")]))
                   Absent Absent Absent)
                None))
          (fresh "https://api.example.com"))).
Proof.
  apply (get_requests_carry_no_body (answers (JArr []))
           (Get "/search"
              (mkPartialConfig Absent Absent (Present (JObj [("q"%string, JStr "x")]))
                 Absent Absent Absent)
              None)
           (fresh "https://api.example.com")).
  reflexivity.
Defined.

(** When the caller's configuration has neither a [method] nor a [body]
    property, the requests of [post], [put] and [patch] carry the
    serialization of the body argument if that is truthy, and no body at
    all if it is falsy ([undefined], [null], [false], [0], the empty
    string); the requests of [get] and [delete] carry none. *)
Theorem body_of_outgoing_requests transport c s :
  p_method (call_config c) = Absent ->
  p_body (call_config c) = Absent ->
  Forall
    (fun b =>
       b = match call_body c with
           | Some v => if truthy v then Some (Text.stringify v) else None
           | None => None
           end)
    (outgoing_bodies (events_of (run_call transport c) s)).
Proof.
  intros Hm Hb. unfold outgoing_bodies. apply Forall_map.
  eapply Forall_impl; [|apply call_requests].
  intros r ->. simpl.
  destruct c as [e cfg ttl|e b cfg|e b cfg|e b cfg|e cfg]; simpl in *;
    rewrite Hm, Hb; simpl; try reflexivity;
    destruct b as [v|]; simpl; try reflexivity;
    unfold truthy at 1, truthy_option; destruct (truthy v); reflexivity.
Qed.

Lemma body_of_outgoing_requests_witness :
  Forall
    (fun b =>
       b = match call_body (Post "/counters" (Some (JNum 0)) empty_config) with
           | Some v => if truthy v then Some (Text.stringify v) else None
           | None => None
           end)
    (outgoing_bodies
       (events_of (run_call (answers JNull) (Post "/counters" (Some (JNum 0)) empty_config))
          (fresh "https://api.example.com"))).
Proof.
  apply (body_of_outgoing_requests (answers JNull)
           (Post "/counters" (Some (JNum 0)) empty_config)
           (fresh "https://api.example.com")); reflexivity.
Defined.

(** ** The cache map *)

(** Store, then look up. After [saveToCache(key, data, ttl)] at time [t], a
    lookup of [key] at a later time finds [data] up to and including time
    [t + ttl] ([ttl] is 60000 when omitted) and leaves the map as it is;
    after that time it finds nothing and removes the entry. A lookup of
    another key finds what it found before the store. *)
Theorem stored_entry_is_found_until_it_expires key d ttl s w' key' :
  let s1 := snd (saveToCache key d ttl s) in
  getFromCache key (mkSys (self s1) w')
    = (if now w' >? now (world s) + default 60000 ttl
       then (Ok None, mkSys (with_cache (self s) (delete key (cache (self s)))) w')
       else (Ok (Some d), mkSys (self s1) w')) /\
  fst (getFromCache key' (mkSys (self s1) w'))
    = if decide (key' = key)
      then Ok (if now w' >? now (world s) + default 60000 ttl then None else Some d)
      else fst (getFromCache key' (mkSys (self s) w')).
Proof.
  cbv zeta.
  assert (Hkey : getFromCache key (mkSys (self (snd (saveToCache key d ttl s))) w')
    = (if now w' >? now (world s) + default 60000 ttl
       then (Ok None, mkSys (with_cache (self s) (delete key (cache (self s)))) w')
       else (Ok (Some d), mkSys (self (snd (saveToCache key d ttl s))) w'))).
  { rewrite getFromCache_run. unfold live_entry, evict. simpl.
    rewrite lookup_insert_eq. simpl.
    destruct (now w' >? now (world s) + default 60000 ttl); [|reflexivity].
    simpl. unfold with_cache. simpl. rewrite delete_insert_eq. reflexivity. }
  split; [exact Hkey|].
  destruct (decide (key' = key)) as [->|Hne].
  - rewrite Hkey. destruct (now w' >? _); reflexivity.
  - rewrite !getFromCache_run. simpl. unfold live_entry. simpl.
    rewrite lookup_insert_ne by done. reflexivity.
Qed.

(** [clearCache()] never throws, leaves nothing in the map and touches
    nothing else; clearing twice is clearing once. After it every lookup
    misses, and every [get], with or without a TTL, goes to the network. *)
Theorem clearCache_empties_the_cache transport s key endpoint config cacheTtl :
  let s1 := snd (clearCache s) in
  fst (clearCache s) = Ok tt /\
  cache (self s1) = ∅ /\
  world s1 = world s /\
  clearCache s1 = (Ok tt, s1) /\
  getFromCache key s1 = (Ok None, s1) /\
  fetches (events_of (get transport endpoint config cacheTtl) s1) <> [].
Proof.
  cbv zeta. split; [reflexivity|]. split; [reflexivity|]. split; [reflexivity|].
  split; [reflexivity|]. split.
  - rewrite getFromCache_run. unfold live_entry, evict. simpl.
    rewrite lookup_empty. reflexivity.
  - apply get_goes_to_network. unfold live_entry. simpl. rewrite lookup_empty.
    apply andb_false_r.
Qed.

(** ** The cache and [get] *)

(** Without a TTL -- omitted or zero -- [get] goes to the network whatever
    the cache holds, stores nothing and removes nothing, and ends as it
    would with any other cache content. *)
Theorem get_without_ttl_bypasses_the_cache transport endpoint config cacheTtl s entries :
  cacheTtl = None \/ cacheTtl = Some 0 ->
  fetches (events_of (get transport endpoint config cacheTtl) s) <> [] /\
  self (snd (get transport endpoint config cacheTtl s)) = self s /\
  fst (get transport endpoint config cacheTtl
         (mkSys (with_cache (self s) entries) (world s)))
    = fst (get transport endpoint config cacheTtl s).
Proof.
  intros Httl.
  assert (Hfalsy : truthy cacheTtl = false) by (destruct Httl as [->| ->]; reflexivity).
  split; [apply get_goes_to_network; rewrite Hfalsy; reflexivity|].
  rewrite !get_unfold. cbv zeta. rewrite Hfalsy.
  rewrite request_frame.
  pose proof (request_self transport endpoint (with_method GET config) s) as Hself.
  destruct (request _ _ _ s) as [[r|t] s2]; simpl in *; done.
Qed.

Lemma get_without_ttl_bypasses_the_cache_witness :
  let s := snd (get (answers (JStr "pong")) "/ping" empty_config (Some 60000)
                  (fresh "https://api.example.com")) in
  fetches (events_of (get (answers (JStr "pong")) "/ping" empty_config None) s) <> [] /\
  self (snd (get (answers (JStr "pong")) "/ping" empty_config None s)) = self s /\
  fst (get (answers (JStr "pong")) "/ping" empty_config None
         (mkSys (with_cache (self s) ∅) (world s)))
    = fst (get (answers (JStr "pong")) "/ping" empty_config None s).
Proof.
  apply (get_without_ttl_bypasses_the_cache (answers (JStr "pong")) "/ping" empty_config
           None
           (snd (get (answers (JStr "pong")) "/ping" empty_config (Some 60000)
                   (fresh "https://api.example.com")))
           ∅).
  left. reflexivity.
Defined.

Lemma live_entry_later c w w' key entry :
  live_entry key (mkSys c w) = Some entry ->
  now w' <= expiresAt entry ->
  live_entry key (mkSys c w') = Some entry.
Proof.
  unfold live_entry. simpl. destruct (cache c !! key) as [e|]; [|discriminate].
  destruct (now w >? expiresAt e); [discriminate|].
  intros [= ->] Hle.
  destruct (Z.gtb_spec (now w') (expiresAt entry)); [lia|reflexivity].
Qed.

Lemma truthy_positive_ttl ttl : 0 < ttl -> truthy (Some ttl) = true.
Proof.
  intros H. unfold truthy, truthy_option, truthy, truthy_number.
  destruct (Z.eqb_spec ttl 0); [lia|reflexivity].
Qed.

(** How a [get] with a TTL can return: served from the cache, which it
    leaves as it is, or answered by the network and stored. *)
Lemma get_returns transport endpoint config cacheTtl s d :
  let key := getCacheKey endpoint (with_method GET config) in
  truthy cacheTtl = true ->
  fst (get transport endpoint config cacheTtl s) = Ok d ->
  (exists e,
     live_entry key s = Some e /\ truthy (data e) = true /\ data e = d /\
     snd (get transport endpoint config cacheTtl s) = s) \/
  (exists r s2,
     truthy (data <$> live_entry key s) = false /\
     request transport endpoint (with_method GET config) (evict key s) = (Ok r, s2) /\
     res_data r = d /\
     snd (get transport endpoint config cacheTtl s)
       = stored key d (default 60000 cacheTtl) s2).
Proof.
  intros key Httl. rewrite get_unfold. cbv zeta. fold key. rewrite Httl.
  destruct (truthy (data <$> live_entry key s)) eqn:Hhit.
  - intros [= <-]. left.
    destruct (live_entry key s) as [e|] eqn:Hlive; [|discriminate].
    exists e. simpl in *. rewrite (evict_live _ _ _ Hlive). done.
  - destruct (request _ _ _ (evict key s)) as [[r|t] s2] eqn:Hreq; [|discriminate].
    intros [= <-]. right. exists r, s2. done.
Qed.

(** The entry a successful [get] with a positive TTL leaves alive. *)
Lemma get_leaves_live_entry transport endpoint config ttl s d :
  let key := getCacheKey endpoint (with_method GET config) in
  let s1 := snd (get transport endpoint config (Some ttl) s) in
  0 < ttl ->
  fst (get transport endpoint config (Some ttl) s) = Ok d ->
  exists entry,
    live_entry key s1 = Some entry /\
    data entry = d /\
    (fetches (events_of (get transport endpoint config (Some ttl)) s) = [] \/
     entry = {| data := d; timestamp := now (world s1);
                expiresAt := now (world s1) + ttl |}).
Proof.
  intros key s1 Hpos Hok.
  pose proof (truthy_positive_ttl ttl Hpos) as Httl.
  destruct (get_returns transport endpoint config (Some ttl) s d Httl Hok)
    as [(e & Hlive & Hte & Hde & Hs1)|(r & s2 & Hmiss & Hreq & Hr & Hs1)];
    fold key in Hlive || fold key in Hmiss, Hs1; fold s1 in Hs1.
  - exists e. rewrite Hs1. split; [exact Hlive|]. split; [exact Hde|].
    left. rewrite events_of_silent; [reflexivity|]. fold s1. rewrite Hs1. reflexivity.
  - exists {| data := d; timestamp := now (world s1); expiresAt := now (world s1) + ttl |}.
    split; [|split; [reflexivity|right; reflexivity]].
    rewrite Hs1. unfold live_entry, stored. simpl. rewrite lookup_insert_eq. simpl.
    destruct (Z.gtb_spec (now (world s2)) (now (world s2) + ttl)); [lia|reflexivity].
Qed.

Lemma live_entry_lookup key s entry :
  live_entry key s = Some entry ->
  cache (self s) !! key = Some entry /\ now (world s) <= expiresAt entry.
Proof.
  unfold live_entry. destruct (cache (self s) !! key) as [e|]; [|discriminate].
  destruct (Z.gtb_spec (now (world s)) (expiresAt e)); [discriminate|].
  intros [= ->]. split; [reflexivity|lia].
Qed.

(** An entry with truthy data is served by [get] until it has expired. *)
Lemma live_entry_served transport endpoint config ttl s w' entry :
  live_entry (getCacheKey endpoint (with_method GET config)) s = Some entry ->
  truthy (data entry) = true ->
  truthy ttl = true ->
  expiresAt entry < now w' \/
  get transport endpoint config ttl (mkSys (self s) w')
    = (Ok (data entry), mkSys (self s) w').
Proof.
  intros Hlive Hd Httl.
  destruct (Z.lt_ge_cases (expiresAt entry) (now w')) as [Hlt|Hle]; [left; exact Hlt|].
  right. apply cache_hit_served; [exact Httl| |exact Hd].
  apply live_entry_later with (world s); [|exact Hle].
  rewrite sys_eta. exact Hlive.
Qed.

(** What a successful [get] with a positive TTL leaves behind: an entry
    under the key of the call that holds the data returned and has not
    expired; if the call went to the network, the entry expires one TTL
    after the response. Until the entry has expired, a truthy [d] is
    returned by every [get] with the same endpoint and configuration and
    any TTL, with no request to the transport and no change of state. *)
Theorem successful_get_is_served_again transport endpoint config ttl s d
    transport' ttl' w' :
  let key := getCacheKey endpoint (with_method GET config) in
  let s1 := snd (get transport endpoint config (Some ttl) s) in
  0 < ttl ->
  fst (get transport endpoint config (Some ttl) s) = Ok d ->
  truthy d = true ->
  truthy ttl' = true ->
  exists entry,
    cache (self s1) !! key = Some entry /\
    data entry = d /\
    now (world s1) <= expiresAt entry /\
    (fetches (events_of (get transport endpoint config (Some ttl)) s) = [] \/
     entry = {| data := d; timestamp := now (world s1);
                expiresAt := now (world s1) + ttl |}) /\
    (expiresAt entry < now w' \/
     get transport' endpoint config ttl' (mkSys (self s1) w')
       = (Ok d, mkSys (self s1) w')).
Proof.
  intros key s1 Hpos Hok Hd Httl'.
  destruct (get_leaves_live_entry transport endpoint config ttl s d Hpos Hok)
    as (entry & Hlive & Hdata & Hexp).
  fold key s1 in Hlive, Hexp.
  destruct (live_entry_lookup _ _ _ Hlive) as [Hlook Hnow].
  exists entry. repeat (split; [assumption|]).
  rewrite <- Hdata. apply live_entry_served; [exact Hlive|rewrite Hdata; exact Hd|exact Httl'].
Qed.

(** Witness: a server that answers the empty array, a TTL of one minute. *)
Lemma successful_get_is_served_again_witness :
  let s := fresh "https://api.example.com" in
  let s1 := snd (get (answers (JArr [])) "/users" empty_config (Some 60000) s) in
  exists entry,
    cache (self s1) !! getCacheKey "/users" (with_method GET empty_config) = Some entry /\
    data entry = JArr [] /\
    now (world s1) <= expiresAt entry /\
    (fetches (events_of (get (answers (JArr [])) "/users" empty_config (Some 60000)) s)
       = [] \/
     entry = {| data := JArr []; timestamp := now (world s1);
                expiresAt := now (world s1) + 60000 |}) /\
    (expiresAt entry < now (mkWorld 60020 [] None) \/
     get unreachable "/users" empty_config (Some 1) (mkSys (self s1) (mkWorld 60020 [] None))
       = (Ok (JArr []), mkSys (self s1) (mkWorld 60020 [] None))).
Proof.
  apply (successful_get_is_served_again (answers (JArr [])) "/users" empty_config 60000
           (fresh "https://api.example.com") (JArr []) unreachable (Some 1)
           (mkWorld 60020 [] None)).
  - lia.
  - reflexivity.
  - reflexivity.
  - reflexivity.
Defined.

Lemma evict_dead key s :
  live_entry key s = None ->
  evict key s = mkSys (with_cache (self s) (delete key (cache (self s)))) (world s).
Proof.
  unfold live_entry, evict. destruct (cache (self s) !! key) as [e|] eqn:Hlook.
  - destruct (now (world s) >? expiresAt e); [reflexivity|discriminate].
  - intros _. rewrite delete_id by exact Hlook.
    rewrite with_cache_same, sys_eta. reflexivity.
Qed.

(** Miss and expiry. A [get] with a TTL that finds no entry under its key,
    or one that has expired, goes to the network. When the request
    succeeds the map holds, under the key, the data returned, stamped with
    the time of the response and expiring one TTL later; when it fails,
    the map is what it was less the expired entry. *)
Theorem cache_miss_fetches_and_stores transport endpoint config ttl s :
  let key := getCacheKey endpoint (with_method GET config) in
  let run := get transport endpoint config (Some ttl) s in
  ttl <> 0 ->
  live_entry key s = None ->
  events_of (get transport endpoint config (Some ttl)) s
    = events_of (request transport endpoint (with_method GET config)) s /\
  fetches (events_of (get transport endpoint config (Some ttl)) s) <> [] /\
  fst run
    = match fst (request transport endpoint (with_method GET config) s) with
      | Ok response => Ok (res_data response)
      | Throw t => Throw t
      end /\
  cache (self (snd run))
    = match fst run with
      | Ok d =>
          <[ key := {| data := d; timestamp := now (world (snd run));
                       expiresAt := now (world (snd run)) + ttl |} ]> (cache (self s))
      | Throw _ => delete key (cache (self s))
      end.
Proof.
  intros key run Httl Hdead.
  assert (Ht : truthy (Some ttl) = true).
  { unfold truthy, truthy_option, truthy, truthy_number.
    destruct (Z.eqb_spec ttl 0); [contradiction|reflexivity]. }
  destruct (get_goes_to_network transport endpoint config (Some ttl) s) as [Hev Hne].
  { fold key. rewrite Hdead. apply andb_false_r. }
  split; [exact Hev|]. split; [exact Hne|].
  subst run. rewrite get_unfold. cbv zeta. fold key. rewrite Ht, Hdead. simpl.
  change (truthy (@None json)) with false. cbv iota.
  rewrite (evict_dead _ _ Hdead), request_frame.
  destruct (request transport endpoint (with_method GET config) s) as [[r|t] s2]; simpl.
  - split; [reflexivity|]. apply insert_delete_eq.
  - split; reflexivity.
Qed.

(** Witness: the entry of an earlier call has expired. *)
Lemma cache_miss_fetches_and_stores_witness :
  let s := mkSys (self (snd (get (answers (JStr "pong")) "/ping" empty_config (Some 1000)
                               (fresh "https://api.example.com"))))
             (mkWorld 5000 [] None) in
  let key := getCacheKey "/ping" (with_method GET empty_config) in
  let run := get unreachable "/ping" empty_config (Some 1000) s in
  events_of (get unreachable "/ping" empty_config (Some 1000)) s
    = events_of (request unreachable "/ping" (with_method GET empty_config)) s /\
  fetches (events_of (get unreachable "/ping" empty_config (Some 1000)) s) <> [] /\
  fst run
    = match fst (request unreachable "/ping" (with_method GET empty_config) s) with
      | Ok response => Ok (res_data response)
      | Throw t => Throw t
      end /\
  cache (self (snd run))
    = match fst run with
      | Ok d =>
          <[ key := {| data := d; timestamp := now (world (snd run));
                       expiresAt := now (world (snd run)) + 1000 |} ]> (cache (self s))
      | Throw _ => delete key (cache (self s))
      end.
Proof.
  apply (cache_miss_fetches_and_stores unreachable "/ping" empty_config 1000
           (mkSys (self (snd (get (answers (JStr "pong")) "/ping" empty_config (Some 1000)
                               (fresh "https://api.example.com"))))
              (mkWorld 5000 [] None))).
  - lia.
  - reflexivity.
Defined.

Lemma getCacheKey_method_body endpoint config1 config2 :
  p_method config2 = p_method config1 ->
  p_body config2 = p_body config1 ->
  getCacheKey endpoint (with_method GET config2)
  = getCacheKey endpoint (with_method GET config1).
Proof. intros Hm Hb. unfold getCacheKey. simpl. rewrite Hm, Hb. reflexivity. Qed.

(** The cache does not tell callers apart by their headers. After a
    successful [get] with a positive TTL that returned a truthy [d], a
    [get] of the same endpoint whose configuration has the same [method]
    and [body] properties -- whatever its headers, timeout and retries --
    returns [d] from the cache, without a request, until the entry of the
    first call has expired. *)
Theorem cached_data_is_served_whatever_the_headers transport endpoint config1 ttl s d
    transport' config2 ttl' w' :
  let s1 := snd (get transport endpoint config1 (Some ttl) s) in
  0 < ttl ->
  fst (get transport endpoint config1 (Some ttl) s) = Ok d ->
  truthy d = true ->
  truthy ttl' = true ->
  p_method config2 = p_method config1 ->
  p_body config2 = p_body config1 ->
  exists entry,
    cache (self s1) !! getCacheKey endpoint (with_method GET config1) = Some entry /\
    now (world s1) <= expiresAt entry /\
    (expiresAt entry < now w' \/
     get transport' endpoint config2 ttl' (mkSys (self s1) w')
       = (Ok d, mkSys (self s1) w')).
Proof.
  intros s1 Hpos Hok Hd Httl' Hm Hb.
  destruct (get_leaves_live_entry transport endpoint config1 ttl s d Hpos Hok)
    as (entry & Hlive & Hdata & _).
  fold s1 in Hlive.
  destruct (live_entry_lookup _ _ _ Hlive) as [Hlook Hle].
  exists entry. split; [exact Hlook|]. split; [exact Hle|].
  rewrite <- (getCacheKey_method_body endpoint config1 config2 Hm Hb) in Hlive.
  rewrite <- Hdata.
  apply live_entry_served; [exact Hlive|rewrite Hdata; exact Hd|exact Httl'].
Qed.

(** Witness: a response fetched with one [Authorization] header is served
    to a call with another. *)
Lemma cached_data_is_served_whatever_the_headers_witness :
  let alice := mkPartialConfig Absent
                 (Present {[ "Authorization"%string := "Bearer alice"%string ]})
                 Absent Absent Absent Absent in
  let bob := mkPartialConfig Absent
               (Present {[ "Authorization"%string := "Bearer bob"%string ]})
               Absent Absent Absent Absent in
  let s1 := snd (get (answers (JObj [("name"%string, JStr "Alice")])) "/me" alice
                   (Some 60000) (fresh "https://api.example.com")) in
  exists entry,
    cache (self s1) !! getCacheKey "/me" (with_method GET alice) = Some entry /\
    now (world s1) <= expiresAt entry /\
    (expiresAt entry < now (mkWorld 30000 [] None) \/
     get unreachable "/me" bob (Some 60000) (mkSys (self s1) (mkWorld 30000 [] None))
       = (Ok (JObj [("name"%string, JStr "Alice")]),
          mkSys (self s1) (mkWorld 30000 [] None))).
Proof.
  apply (cached_data_is_served_whatever_the_headers
           (answers (JObj [("name"%string, JStr "Alice")])) "/me"
           (mkPartialConfig Absent
              (Present {[ "Authorization"%string := "Bearer alice"%string ]})
              Absent Absent Absent Absent)
           60000 (fresh "https://api.example.com")
           (JObj [("name"%string, JStr "Alice")]) unreachable
           (mkPartialConfig Absent
              (Present {[ "Authorization"%string := "Bearer bob"%string ]})
              Absent Absent Absent Absent)
           (Some 60000) (mkWorld 30000 [] None)).
  - lia.
  - reflexivity.
  - reflexivity.
  - reflexivity.
  - reflexivity.
  - reflexivity.
Defined.

(** One call and the entries of other requests: a call changes the map
    at most under its own key. *)
Theorem calls_touch_only_their_own_key transport c s key :
  key <> getCacheKey (call_endpoint c) (call_request_config c) ->
  cache (self (snd (run_call transport c s))) !! key = cache (self s) !! key.
Proof.
  intros Hne.
  assert (Hevict : cache (self (evict (getCacheKey (call_endpoint c)
                                         (call_request_config c)) s)) !! key
                   = cache (self s) !! key).
  { unfold evict. destruct (cache (self s) !! getCacheKey _ _) as [e|]; [|reflexivity].
    destruct (now (world s) >? expiresAt e); [|reflexivity].
    simpl. apply lookup_delete_ne. congruence. }
  destruct (decide (entry_point c = GET)) as [Hget|Hother];
    [|rewrite (other_verbs_keep_cache transport c s Hother); reflexivity].
  destruct c as [e cfg ttl|e b cfg|e b cfg|e b cfg|e cfg]; try discriminate.
  simpl in *. rewrite get_unfold. cbv zeta.
  destruct (truthy ttl).
  - destruct (truthy (data <$> live_entry _ s)); [exact Hevict|].
    pose proof (request_self transport e (with_method GET cfg)
                  (evict (getCacheKey e (with_method GET cfg)) s)) as Hself.
    destruct (request _ _ _ _) as [[r|t] s2]; simpl in *; rewrite Hself.
    + rewrite lookup_insert_ne by congruence. exact Hevict.
    + exact Hevict.
  - pose proof (request_self transport e (with_method GET cfg) s) as Hself.
    destruct (request _ _ _ _) as [[r|t] s2]; simpl in *; rewrite Hself; reflexivity.
Qed.

Lemma calls_touch_only_their_own_key_witness :
  let s := snd (get (answers (JArr [])) "/users" empty_config (Some 60000)
                  (fresh "https://api.example.com")) in
  cache (self (snd (run_call (answers (JArr [])) (Get "/posts" empty_config (Some 60000)) s)))
    !! "GET:/users:{}"%string
  = cache (self s) !! "GET:/users:{}"%string.
Proof.
  apply (calls_touch_only_their_own_key (answers (JArr []))
           (Get "/posts" empty_config (Some 60000))
           (snd (get (answers (JArr [])) "/users" empty_config (Some 60000)
                   (fresh "https://api.example.com")))
           "GET:/users:{}"%string).
  vm_compute. discriminate.
Defined.

(** ** Response headers *)

Lemma parseHeaders_fold (hs : list (string * string)) :
  forall (acc : gmap string string) (k : string),
  k <> "__proto__"%string ->
  fold_left
    (fun result kv =>
       if String.eqb (fst kv) "__proto__" then result
       else <[ fst kv := snd kv ]> result) hs acc !! k
  = match list.last (filter (fun kv => fst kv = k) hs) with
    | Some kv => Some (snd kv)
    | None => acc !! k
    end.
Proof.
  induction hs as [|[k0 v0] hs IH]; intros acc k Hk; simpl; [reflexivity|].
  rewrite (IH _ _ Hk). rewrite filter_cons. simpl.
  destruct (decide (k0 = k)) as [->|Hne].
  - destruct (String.eqb_spec k "__proto__") as [|_]; [contradiction|].
    destruct (filter _ hs) as [|kv l] eqn:Hf.
    + simpl. apply lookup_insert_eq.
    + rewrite last_cons_cons.
      destruct (list.last (kv :: l)) eqn:Hl; [reflexivity|].
      apply last_None in Hl. discriminate.
  - destruct (list.last (filter _ hs)); [reflexivity|].
    destruct (String.eqb k0 "__proto__"); [reflexivity|].
    apply lookup_insert_ne. exact Hne.
Qed.

Lemma parseHeaders_fold_proto (hs : list (string * string)) :
  forall acc : gmap string string,
  fold_left
    (fun result kv =>
       if String.eqb (fst kv) "__proto__" then result
       else <[ fst kv := snd kv ]> result) hs acc !! "__proto__"%string
  = acc !! "__proto__"%string.
Proof.
  induction hs as [|[k0 v0] hs IH]; intros acc; simpl; [reflexivity|].
  rewrite IH. destruct (String.eqb_spec k0 "__proto__") as [|Hne]; [reflexivity|].
  apply lookup_insert_ne. exact Hne.
Qed.

(** [parseHeaders] keeps, for every header name but [__proto__], the value
    the iteration gave last, and has no other keys; a header named
    [__proto__] is lost. *)
Theorem parseHeaders_keeps_the_last_value hs k :
  parseHeaders hs !! k
  = if String.eqb k "__proto__" then None
    else snd <$> list.last (filter (fun kv => fst kv = k) hs).
Proof.
  unfold parseHeaders.
  destruct (String.eqb_spec k "__proto__") as [->|Hk].
  - rewrite parseHeaders_fold_proto. apply lookup_empty.
  - rewrite (parseHeaders_fold _ _ _ Hk), lookup_empty.
    destruct (list.last _); reflexivity.
Qed.

(** ** The duration of the attempts *)

Lemma waited_retry_events url options delay k :
  waited (retry_events url options delay (S k))
  = timer_delay delay + waited (retry_events url options (delay * 2) k).
Proof. reflexivity. Qed.

Lemma waited_nonneg tr : 0 <= waited tr.
Proof.
  unfold waited. induction (waits tr) as [|d l IH]; simpl; [lia|].
  pose proof (timer_delay_pos d).
  set (rest := foldr Z.add 0 (map timer_delay l)) in *. lia.
Qed.

(** An attempt through a [fetch] that honours the signal is over when the
    timer fires, if not before. *)
Lemma signal_aware_settles network url options w deadline :
  abort_timer w = Some deadline ->
  now w + elapsed (signal_aware network w url options) <= Z.max (now w) deadline.
Proof.
  intros Ht. unfold signal_aware. rewrite Ht.
  destruct (Z.leb_spec deadline (now w)); simpl; [lia|].
  destruct (Z.leb_spec deadline (now w + elapsed (network w url options))); simpl; lia.
Qed.

Lemma fetchWithRetry_duration network url options retries delay s deadline :
  abort_timer (world s) = Some deadline ->
  exists k : nat,
    trace (world (snd (fetchWithRetry (signal_aware network) url options retries delay s)))
      = trace (world s) ++ retry_events url options delay k /\
    now (world (snd (fetchWithRetry (signal_aware network) url options retries delay s)))
      <= Z.max (now (world s)) deadline + waited (retry_events url options delay k).
Proof.
  remember (Z.to_nat retries) as n eqn:Hn.
  revert retries delay s Hn.
  induction n as [|n IH]; intros retries delay s Hn Ht;
    rewrite fetchWithRetry_step; unfold fetch;
    pose proof (signal_aware_settles network url options (world s) deadline Ht) as Hsettle;
    destruct (outcome (signal_aware network (world s) url options)) as [response|error].
  - exists 0%nat. simpl. split; [reflexivity|]. unfold waited. simpl. lia.
  - destruct (decide (retries > 0)); [lia|].
    exists 0%nat. simpl. split; [reflexivity|]. unfold waited. simpl. lia.
  - exists 0%nat. simpl. split; [reflexivity|]. unfold waited. simpl. lia.
  - destruct (decide (retries > 0)); [|lia].
    set (s2 := snd (wait delay _)).
    destruct (IH (retries - 1) (delay * 2) s2 ltac:(lia) Ht) as (k & Htr & Hnow).
    exists (S k). rewrite Htr. split.
    + subst s2. simpl. rewrite <- !app_assoc. reflexivity.
    + rewrite waited_retry_events.
      pose proof (waited_nonneg (retry_events url options (delay * 2) k)).
      pose proof (timer_delay_pos delay).
      subst s2. simpl in *.
      set (total := waited _) in *. set (step := timer_delay delay) in *.
      set (final := now (world (snd (fetchWithRetry _ _ _ _ _ _)))) in *.
      lia.
Qed.

(** With a [fetch] that honours the abort signal, every attempt of a call
    is over when the abort timer fires, but the backoff waits are not cut
    short. The attempts of [request] are one run of the retry wrapper,
    started when the timer has been armed; [request] adds the timer
    cancellations and classifies the result. That run is over no later
    than the timer's delay after the start of the call, plus the time the
    call spends waiting between attempts. (The body of a response is read
    after the timer has been cancelled.) *)
Theorem attempts_are_over_within_timeout_and_waits network endpoint config s :
  let transport := signal_aware network in
  let url := request_url (self s) endpoint in
  let options := request_options (self s) config in
  let attempts :=
    fetchWithRetry transport url options
      (js_or (retries config) 0) (js_or (retryDelay config) 1000) (armed config s) in
  trace (world (snd (request transport endpoint config s)))
    = trace (world (snd attempts)) ++ clears_after (fst attempts) /\
  fst (request transport endpoint config s) = settle (fst attempts) /\
  abort_timer (world (armed config s))
    = Some (now (world s)
            + timer_delay (js_or (timeout config) (defaultTimeout (self s)))) /\
  now (world (snd attempts))
    <= now (world s)
       + timer_delay (js_or (timeout config) (defaultTimeout (self s)))
       + waited (events_of (request transport endpoint config) s).
Proof.
  cbv zeta.
  set (url := request_url (self s) endpoint).
  set (options := request_options (self s) config).
  set (ms := js_or (timeout config) (defaultTimeout (self s))).
  destruct (fetchWithRetry_duration network url options
              (js_or (retries config) 0) (js_or (retryDelay config) 1000)
              (armed config s) (now (world s) + timer_delay ms) eq_refl)
    as (k & Htr & Hnow).
  destruct (request_events_of_run (signal_aware network) endpoint config s k Htr)
    as [Hevs Hfst].
  fold url options ms in Hevs, Hfst.
  split; [|split; [exact Hfst|split; [reflexivity|]]].
  - rewrite request_unfold. cbv zeta. fold url options.
    destruct (fetchWithRetry (signal_aware network) url options _ _ (armed config s))
      as [[response|t] s2]; simpl; [|reflexivity].
    destruct (respond response); simpl; rewrite <- ?app_assoc; reflexivity.
  - rewrite Hevs.
    assert (Hw : waited (EvSetAbortTimer ms
                           :: retry_events url options (js_or (retryDelay config) 1000) k
                           ++ clears_after
                                (fst (fetchWithRetry (signal_aware network) url options
                                        (js_or (retries config) 0)
                                        (js_or (retryDelay config) 1000)
                                        (armed config s))))
                 = waited (retry_events url options (js_or (retryDelay config) 1000) k)).
    { unfold waited. f_equal. f_equal.
      destruct (projections_request_events ms url options
                  (js_or (retryDelay config) 1000) k
                  (fst (fetchWithRetry (signal_aware network) url options
                          (js_or (retries config) 0)
                          (js_or (retryDelay config) 1000)
                          (armed config s)))) as (_ & -> & _).
      rewrite waits_retry_events. reflexivity. }
    rewrite Hw.
    change (now (world (armed config s))) with (now (world s)) in Hnow.
    pose proof (timer_delay_pos ms).
    set (total := waited _) in *.
    set (final := now (world (snd (fetchWithRetry _ _ _ _ _ _)))) in *.
    set (limit := timer_delay ms) in *.
    lia.
Qed.

(** ** The configuration of a client *)




(** ** The service layer *)

(** A [request] without retries in its configuration sends one request. *)
Lemma request_without_retries transport endpoint config s :
  retries config = None ->
  fetches (events_of (request transport endpoint config) s)
    = [(request_url (self s) endpoint, request_options (self s) config)] /\
  abort_timers (events_of (request transport endpoint config) s)
    = [js_or (timeout config) (defaultTimeout (self s))].
Proof.
  intros Hr.
  destruct (request_projections transport endpoint config s) as (k & Hk & -> & _ & ->).
  rewrite Hr in Hk. simpl in Hk. replace k with 0%nat by lia. done.
Qed.

(** A call that is not a [get] with a TTL is one [request]. *)
Lemma call_without_ttl transport c s :
  match c with Get _ _ ttl => truthy ttl = false | _ => True end ->
  events_of (run_call transport c) s
    = events_of (request transport (call_endpoint c) (call_request_config c)) s /\
  self (snd (run_call transport c s)) = self s.
Proof.
  intros Httl.
  destruct (decide (entry_point c = GET)) as [Hget|Hother].
  - destruct c as [e cfg ttl|e b cfg|e b cfg|e b cfg|e cfg]; try discriminate.
    split.
    + apply get_goes_to_network. rewrite Httl. reflexivity.
    + simpl. rewrite get_unfold. cbv zeta. rewrite Httl.
      pose proof (request_self transport e (with_method GET cfg) s) as Hself.
      destruct (request _ _ _ _) as [[r|t] s2]; exact Hself.
  - split; [|apply other_verbs_keep_cache, Hother].
    apply events_of_same_world, other_verbs_world, Hother.
Qed.

(** A call with the empty configuration that is not a [get] with a TTL
    sends one request, under the default timer. *)
Lemma plain_call_sends_one_request transport c :
  call_config c = empty_config ->
  match c with Get _ _ ttl => truthy ttl = false | _ => True end ->
  sends_one_request (run_call transport c).
Proof.
  intros Hcfg Httl s.
  destruct (call_without_ttl transport c s Httl) as [-> ->].
  destruct (request_without_retries transport (call_endpoint c) (call_request_config c) s)
    as [-> ->].
  { destruct c; simpl in *; rewrite Hcfg; reflexivity. }
  split; [reflexivity|]. split; [|reflexivity].
  f_equal. destruct c; simpl in *; rewrite Hcfg; reflexivity.
Qed.

Lemma sends_one_request_then {A B} (m : M A) (b : B) :
  sends_one_request m -> sends_one_request (m;; mret b).
Proof.
  intros H s. specialize (H s).
  assert (Hs : snd ((m;; mret b) s) = snd (m s)).
  { unfold mbind, client_bind, bind. destruct (m s) as [[a|t] s']; reflexivity. }
  unfold events_of in *. rewrite Hs. exact H.
Qed.

(** Of the operations of the two services only [getUsers] uses the cache.
    Every other one sends exactly one request whenever it is called -- the
    services configure no retries -- under the client's default timer, and
    leaves the cache as it is. *)
Theorem service_operations_send_one_request transport id input :
  sends_one_request (UserService.getUser transport id) /\
  sends_one_request (UserService.getUserPosts transport id) /\
  sends_one_request (PostService.getPosts transport) /\
  sends_one_request (PostService.getPost transport id) /\
  sends_one_request (PostService.getPostComments transport id) /\
  sends_one_request (PostService.createPost transport input) /\
  sends_one_request (PostService.updatePost transport id input) /\
  sends_one_request (PostService.deletePost transport id).
Proof.
  split; [exact (plain_call_sends_one_request transport (Get _ empty_config None)
                   eq_refl eq_refl)|].
  split; [exact (plain_call_sends_one_request transport (Get _ empty_config None)
                   eq_refl eq_refl)|].
  split; [exact (plain_call_sends_one_request transport (Get _ empty_config None)
                   eq_refl eq_refl)|].
  split; [exact (plain_call_sends_one_request transport (Get _ empty_config None)
                   eq_refl eq_refl)|].
  split; [exact (plain_call_sends_one_request transport (Get _ empty_config None)
                   eq_refl eq_refl)|].
  split; [exact (plain_call_sends_one_request transport (Post _ _ empty_config)
                   eq_refl I)|].
  split; [exact (plain_call_sends_one_request transport (Patch _ _ empty_config)
                   eq_refl I)|].
  apply sends_one_request_then.
  exact (plain_call_sends_one_request transport (Delete _ empty_config) eq_refl I).
Qed.

Lemma live_entry_expired key c w entry :
  cache c !! key = Some entry ->
  expiresAt entry < now w ->
  live_entry key (mkSys c w) = None.
Proof.
  intros Hlook Hlt. unfold live_entry. simpl. rewrite Hlook.
  destruct (Z.gtb_spec (now w) (expiresAt entry)); [reflexivity|lia].
Qed.

(** [getUsers] caches the list of users for one minute. When a call of
    [getUsers] has gone to the network and returned an array -- be it
    empty -- every call of [getUsers] up to 60000 ms after that response
    returns the same array without a request; a call made later than
    that goes to the network again. *)
Theorem getUsers_is_cached_for_a_minute transport transport' s users w' :
  let s1 := snd (UserService.getUsers transport s) in
  fst (UserService.getUsers transport s) = Ok (JArr users) ->
  fetches (events_of (UserService.getUsers transport) s) <> [] ->
  if now w' >? now (world s1) + 60000
  then fetches (events_of (UserService.getUsers transport') (mkSys (self s1) w')) <> []
  else UserService.getUsers transport' (mkSys (self s1) w')
       = (Ok (JArr users), mkSys (self s1) w').
Proof.
  intros s1 Hok Hnet. unfold UserService.getUsers in *.
  destruct (get_leaves_live_entry transport "/users" empty_config 60000 s (JArr users)
              ltac:(lia) Hok) as (entry & Hlive & Hdata & [Hnone|Hentry]);
    [contradiction|].
  fold s1 in Hlive, Hentry.
  destruct (live_entry_lookup _ _ _ Hlive) as [Hlook _].
  assert (Hexp : expiresAt entry = now (world s1) + 60000) by (rewrite Hentry; reflexivity).
  destruct (Z.gtb_spec (now w') (now (world s1) + 60000)) as [Hlate|Hintime].
  - apply get_goes_to_network.
    rewrite (live_entry_expired _ _ _ entry Hlook) by lia.
    reflexivity.
  - destruct (live_entry_served transport' "/users" empty_config (Some 60000) s1 w' entry
                Hlive) as [Hlt|Hget]; [rewrite Hdata; reflexivity|reflexivity|lia|].
    rewrite <- Hdata. exact Hget.
Qed.

Lemma getUsers_is_cached_for_a_minute_witness :
  let s := fresh "https://jsonplaceholder.typicode.com" in
  let s1 := snd (UserService.getUsers (answers (JArr [])) s) in
  if now (mkWorld 60020 [] None) >? now (world s1) + 60000
  then fetches (events_of (UserService.getUsers unreachable)
                  (mkSys (self s1) (mkWorld 60020 [] None))) <> []
  else UserService.getUsers unreachable (mkSys (self s1) (mkWorld 60020 [] None))
       = (Ok (JArr []), mkSys (self s1) (mkWorld 60020 [] None)).
Proof.
  apply (getUsers_is_cached_for_a_minute (answers (JArr [])) unreachable
           (fresh "https://jsonplaceholder.typicode.com") [] (mkWorld 60020 [] None)).
  - reflexivity.
  - vm_compute. discriminate.
Defined.

(** [createPost] and [updatePost] with an object as their argument: one
    request, POST to [/posts] and PATCH to [/posts/<id>] under the base
    address, with the client's default headers, whose body is the JSON
    text of the argument. *)
Theorem posts_are_sent_as_json transport members id s :
  let sent (m : HttpMethod) (path : string) :=
    ((baseUrl (self s) ++ path)%string,
     {| ri_method := Some m;
        ri_headers := defaultHeaders (self s);
        ri_body := Some (Text.stringify (JObj members)) |}) in
  fetches (events_of (PostService.createPost transport (JObj members)) s)
    = [sent POST "/posts"%string] /\
  fetches (events_of (PostService.updatePost transport id (JObj members)) s)
    = [sent PATCH ("/posts/" ++ Text.number_to_string id)%string].
Proof.
  cbv zeta. unfold PostService.createPost, PostService.updatePost. split.
  - destruct (call_without_ttl transport (Post "/posts" (Some (JObj members)) empty_config)
                s I) as [Hev _].
    cbn [run_call call_endpoint call_request_config] in Hev. rewrite Hev.
    destruct (request_without_retries transport "/posts"
                (with_method_body POST (Some (JObj members)) empty_config) s eq_refl)
      as [-> _].
    unfold request_url, request_options. simpl. rewrite map_empty_union. reflexivity.
  - destruct (call_without_ttl transport
                (Patch ("/posts/" ++ Text.number_to_string id)%string
                   (Some (JObj members)) empty_config) s I) as [Hev _].
    cbn [run_call call_endpoint call_request_config] in Hev. rewrite Hev.
    destruct (request_without_retries transport
                ("/posts/" ++ Text.number_to_string id)%string
                (with_method_body PATCH (Some (JObj members)) empty_config) s eq_refl)
      as [-> _].
    unfold request_url, request_options. simpl. rewrite map_empty_union. reflexivity.
Qed.

(** ** Bodies that do not parse *)

(** The body of a response is parsed before its status is looked at. A
    response whose body does not parse -- an empty one, say -- makes the
    call throw an [ApiError] with the message of the parse error and
    status 0, whatever the status of the response, 200-299 included. *)
Theorem unparseable_body_hides_the_status transport endpoint config s
    retries' delay' s' response name msg :
  let url := request_url (self s) endpoint in
  let options := request_options (self s) config in
  attempt_of transport endpoint config s (retries', delay', s') ->
  outcome (transport (world s') url options) = Ok response ->
  r_json response = Throw (ThrownError name msg) ->
  name <> "AbortError"%string ->
  fst (request transport endpoint config s)
    = Throw (ThrownApiError (mkApiError msg 0 None)) /\
  trace (world (snd (request transport endpoint config s)))
    = trace (world s') ++ [EvFetch url options; EvClearAbortTimer; EvClearAbortTimer].
Proof.
  intros url options Hattempt Hout Hjson Hname.
  rewrite (request_from_attempt _ _ _ _ _ _ _ Hattempt). fold url options.
  rewrite (fetchWithRetry_first_ok _ _ _ _ _ _ _ Hout).
  unfold respond. rewrite Hjson. simpl.
  destruct (String.eqb_spec name "AbortError"); [contradiction|].
  rewrite <- !app_assoc. done.
Qed.

Lemma unparseable_body_hides_the_status_witness :
  let s := fresh "https://api.example.com" in
  let config := with_method DELETE empty_config in
  fst (request no_content "/posts/1" config s)
    = Throw (ThrownApiError (mkApiError "Unexpected end of JSON input" 0 None)) /\
  trace (world (snd (request no_content "/posts/1" config s)))
    = trace (world (armed config s))
        ++ [EvFetch (request_url (self s) "/posts/1") (request_options (self s) config);
            EvClearAbortTimer; EvClearAbortTimer].
Proof.
  apply (unparseable_body_hides_the_status no_content "/posts/1"
           (with_method DELETE empty_config) (fresh "https://api.example.com")
           0 1000 (armed (with_method DELETE empty_config) (fresh "https://api.example.com"))
           (mkResponse 204 "No Content" []
              (Throw (ThrownError "SyntaxError" "Unexpected end of JSON input")))
           "SyntaxError" "Unexpected end of JSON input").
  - apply rtc_refl.
  - reflexivity.
  - reflexivity.
  - discriminate.
Defined.

(** ** The backoff of a call *)

(** The waits of a call are [d], [2 d], [4 d], ... for as many retries as
    it makes, where [d] is the [retryDelay] of the caller's configuration
    -- unless that is absent or zero, when [d] is 1000 ms: a base delay of
    zero cannot be configured. *)
Theorem backoff_of_a_call transport c s :
  exists k : nat,
    Z.of_nat k <= Z.max 0 (js_or (retries (call_request_config c)) 0) /\
    waits (events_of (run_call transport c) s)
      = map (fun i => base_delay c * 2 ^ Z.of_nat i) (seq 0 k).
Proof.
  destruct (call_events transport c s) as [-> | ->].
  - exists 0%nat. split; [lia|reflexivity].
  - destruct (request_projections transport (call_endpoint c) (call_request_config c) s)
      as (k & Hk & _ & -> & _).
    exists k. split; [exact Hk|].
    replace (js_or (retryDelay (call_request_config c)) 1000) with (base_delay c);
      [reflexivity|].
    unfold base_delay.
    replace (retryDelay (call_request_config c)) with (read (p_retryDelay (call_config c)))
      by (destruct c; reflexivity).
    destruct (read (p_retryDelay (call_config c))) as [d|]; simpl; [|reflexivity].
    unfold truthy, truthy_number. destruct (d =? 0); reflexivity.
Qed.
